(** * NDW-Shapefile: the gap-closing algorithm of [main.py]

    A shallow embedding of [get_lines], [AngleBtw2Points],
    [calculate_neighbors], [convert_to_id], [generate_artificial_lines],
    [calculate_cos] and the [while 1] loop of [main], followed by the
    properties of the specification.  [main] below starts from the frame
    returned by [read_shp] and ends with the state at [break].  Of
    [read_shp] the indexing and sorting of the rows is modelled, of
    [prepare_df_for_concatenation] the column [naam]; the files
    themselves, the placeholder columns and the command line are left out.

    Modelling conventions.
    - A Python float is a real number of [R]; [np.inf] is the extra point of
      [best] below.  Nothing here speaks about rounding.
    - A pandas frame is the list of its rows, in frame order; the index
      column is the field [idx] (or the pair [e_idx], [b_idx]).
    - A Python exception is a [Raise] of the error monad [result].
    - [.wkt] followed by [wkt.loads] is the identity on points, and two
      [.wkt] strings are equal when the points are.
    - [NearestNeighbors.kneighbors] is a sort of the sample positions by
      distance to the query, cut after [n_neighbors]; positions at equal
      distance are kept in sample order, which the library leaves open and
      on which no property below depends.
    - [while 1] is a recursion on a number of allowed turns, [fuel]; the
      properties of termination show that it is never exhausted. *)

From Stdlib Require Import List ZArith Lia Bool Arith Permutation Sorted.
From Stdlib Require Import Reals Lra.
From Stdlib Require Strings.String Strings.Ascii.
From Stdlib Require Numbers.DecimalString Numbers.DecimalZ Numbers.DecimalPos.
Import ListNotations.

(** ** Exceptions as an error monad *)

Inductive exception : Set := IndexError | KeyError | ValueError | TypeError.

Inductive result (A : Type) : Type :=
| Ok (a : A)
| Raise (e : exception).

Arguments Ok {A} a.
Arguments Raise {A} e.

Definition bind {A B : Type} (m : result A) (k : A -> result B) : result B :=
  match m with
  | Ok a => k a
  | Raise e => Raise e
  end.

Notation "x <- m ;; k" := (bind m (fun x => k))
  (at level 61, m at next level, right associativity).
Notation "' pat <- m ;; k" := (bind m (fun x => match x with pat => k end))
  (at level 61, pat pattern, m at next level, right associativity).

Fixpoint mapM {A B : Type} (f : A -> result B) (l : list A) : result (list B) :=
  match l with
  | [] => Ok []
  | a :: l' => b <- f a ;; bs <- mapM f l' ;; Ok (b :: bs)
  end.

(** [seq[i]] on a Python sequence. *)
Definition getitem {A : Type} (l : list A) (i : nat) : result A :=
  match nth_error l i with
  | Some a => Ok a
  | None => Raise IndexError
  end.

(** ** Numbers and points *)

Definition Rltb (x y : R) : bool := if Rlt_dec x y then true else false.
Definition Rleb (x y : R) : bool := if Rle_dec x y then true else false.
Definition Reqb (x y : R) : bool := if Req_dec_T x y then true else false.

Definition point : Type := (R * R)%type.

Definition point_eqb (p q : point) : bool :=
  Reqb (fst p) (fst q) && Reqb (snd p) (snd q).

(** [math.atan2] on reals; [atan2 0 0 = 0] as in the C library. *)
Definition atan2 (y x : R) : R :=
  if Rlt_dec 0 x then atan (y / x)
  else if Rlt_dec x 0 then
    if Rle_dec 0 y then (atan (y / x) + PI)%R else (atan (y / x) - PI)%R
  else if Rlt_dec 0 y then (PI / 2)%R
  else if Rlt_dec y 0 then (- (PI / 2))%R
  else 0%R.

(** [math.degrees]. *)
Definition degrees (x : R) : R := (x * (180 / PI))%R.

Definition AngleBtw2Points (point_a point_b : point) : R :=
  let change_x := (fst point_b - fst point_a)%R in
  let change_y := (snd point_b - snd point_a)%R in
  degrees (atan2 change_y change_x).

(** Squared Euclidean distance, which orders points as the distance does. *)
Definition dist2 (p q : point) : R :=
  ((fst p - fst q) * (fst p - fst q) + (snd p - snd q) * (snd p - snd q))%R.

(** ** Sorting: a stable insertion sort for [sort_index] and [kneighbors] *)

Section Sort.
Context {A : Type} (leb : A -> A -> bool).

Fixpoint insert (x : A) (l : list A) : list A :=
  match l with
  | [] => [x]
  | y :: l' => if leb x y then x :: l else y :: insert x l'
  end.

Fixpoint sort (l : list A) : list A :=
  match l with
  | [] => []
  | x :: l' => insert x (sort l')
  end.
End Sort.

(** ** Frames *)

(** A row of the frame returned by [read_shp]. *)
Record feature : Type := mkFeature {
  fid : Z;
  coords : list point
}.

(** A row after [get_lines] added the columns [b_point] and [e_point]. *)
Record line : Type := mkLine {
  idx : Z;
  geometry : list point;
  b_point : point;
  e_point : point
}.

(** A row of [artificial_lines], indexed by [(e_idx, b_idx)]. *)
Record art_line : Type := mkArt {
  e_idx : Z;
  b_idx : Z;
  art_geometry : list point
}.

(** A row of [filtered_lines]. *)
Record connector : Type := mkConnector {
  c_e_idx : Z;
  c_b_idx : Z;
  angle : R;
  angle_art : R;
  c_geometry : list point
}.

Definition ids (df : list line) : list Z := map idx df.

(** [df.loc[label]] on a frame whose index has no duplicates. *)
Definition loc (df : list line) (label : Z) : result line :=
  match find (fun l => Z.eqb (idx l) label) df with
  | Some l => Ok l
  | None => Raise KeyError
  end.

Definition mem (x : Z) (l : list Z) : bool := existsb (Z.eqb x) l.

(** [df.drop(labels, inplace=True)]: every label must be in the index. *)
Definition drop (df : list line) (labels : list Z) : result (list line) :=
  if forallb (fun x => mem x (ids df)) labels
  then Ok (filter (fun l => negb (mem (idx l) labels)) df)
  else Raise KeyError.

(** ** Endpoint extraction *)

(** [LineString.boundary]: the two end points, or the empty collection for
    a geometry without two coordinates and for a closed line. *)
Definition boundary (cs : list point) : list point :=
  match cs with
  | p :: _ :: _ => let q := last cs p in if point_eqb p q then [] else [p; q]
  | _ => []
  end.

Definition get_begin (points : list point) : result point := getitem points 0.

Definition get_end (points : list point) : result point := getitem points 1.

Definition isin (p : point) (col : list point) : bool := existsb (point_eqb p) col.

Definition add_points (df : list feature) (bs es : list point) : list line :=
  map (fun r => mkLine (fid (fst r)) (coords (fst r)) (fst (snd r)) (snd (snd r)))
      (combine df (combine bs es)).

Definition get_lines (df : list feature) : result (list line * list line) :=
  bs <- mapM (fun f => get_begin (boundary (coords f))) df ;;
  es <- mapM (fun f => get_end (boundary (coords f))) df ;;
  let df' := add_points df bs es in
  let lines_no_end := filter (fun l => negb (isin (e_point l) bs)) df' in
  let lines_no_begin := filter (fun l => negb (isin (b_point l) es)) df' in
  Ok (lines_no_end, lines_no_begin).

(** ** Nearest candidates *)

(** Indices of [dists] by increasing distance, equal distances by index. *)
Definition argsort (dists : list R) : list nat :=
  sort (fun i j => Rleb (nth i dists 0%R) (nth j dists 0%R)) (seq 0 (length dists)).

(** [NearestNeighbors(n_neighbors).fit(n_a).kneighbors(n_b)], the index
    matrix.  [fit] refuses an empty sample, [kneighbors] refuses an empty
    query and a sample smaller than [n_neighbors]. *)
Definition kneighbors (n_neighbors : nat) (n_a n_b : list point)
  : result (list (list nat)) :=
  match n_a, n_b with
  | [], _ => Raise ValueError
  | _, [] => Raise ValueError
  | _, _ =>
      if length n_a <? n_neighbors then Raise ValueError
      else Ok (map (fun q => firstn n_neighbors (argsort (map (dist2 q) n_a))) n_b)
  end.

Definition calculate_neighbors (lines_no_end lines_no_begin : list line)
  : result (list (list nat)) :=
  let n_a := map e_point lines_no_end in
  let n_b := map b_point lines_no_begin in
  kneighbors 3 n_a n_b.

(** [df.index[x]] for every [x] of the column. *)
Definition convert_to_id (column : list nat) (df : list line) : result (list Z) :=
  mapM (fun x => getitem (ids df) x) column.

(** Lines 217 and 218 of [main]: the column [first]. *)
Definition first_column (lines_no_end lines_no_begin : list line) : result (list Z) :=
  indices <- calculate_neighbors lines_no_end lines_no_begin ;;
  col0 <- mapM (fun row => getitem row 0) indices ;;
  convert_to_id col0 lines_no_end.

(** ** Connector synthesis *)

Definition index_leb (a b : art_line) : bool :=
  Z.ltb (e_idx a) (e_idx b) || (Z.eqb (e_idx a) (e_idx b) && Z.leb (b_idx a) (b_idx b)).

(** [lines_no_begin] comes with its column [first]. *)
Definition generate_artificial_lines
  (lines_no_begin : list (line * Z)) (lines_no_end : list line)
  : result (list art_line) :=
  rows <- mapM (fun r =>
            e <- loc lines_no_end (snd r) ;;
            Ok (mkArt (snd r) (idx (fst r)) [e_point e; b_point (fst r)]))
          lines_no_begin ;;
  Ok (sort index_leb rows).

(** ** The angular filter *)

(** [groupby(level=0)]: one group per value of [e_idx], by increasing key,
    the rows of a group in frame order. *)
Definition group_keys (rows : list art_line) : list Z :=
  sort Z.leb (nodup Z.eq_dec (map e_idx rows)).

Definition groupby (rows : list art_line) : list (Z * list art_line) :=
  map (fun k => (k, filter (fun a => Z.eqb (e_idx a) k) rows)) (group_keys rows).

(** [coords[-n:]]. *)
Definition lastn {A : Type} (n : nat) (l : list A) : list A :=
  skipn (length l - n) l.

(** The body of the inner loop up to [degree] and [degree_art]. *)
Definition candidate_angles (lines_no_begin lines_no_end : list line) (a : art_line)
  : result (R * R) :=
  l1 <- loc lines_no_end (e_idx a) ;;
  l2 <- loc lines_no_begin (b_idx a) ;;
  let line1 := lastn 2 (geometry l1) in
  let line2 := firstn 2 (geometry l2) in
  let art_line := art_geometry a in
  p1 <- getitem line1 0 ;; q1 <- getitem line1 1 ;;
  p2 <- getitem line2 0 ;; q2 <- getitem line2 1 ;;
  pa <- getitem art_line 0 ;; qa <- getitem art_line 1 ;;
  let angle1 := AngleBtw2Points p1 q1 in
  let angle2 := AngleBtw2Points p2 q2 in
  let art_angle := AngleBtw2Points pa qa in
  Ok (Rabs (angle1 - angle2), Rabs (art_angle - angle2)).

(** [(min_degree, max_idx, min_degree_art)]; [None] is the initial
    [(np.inf, np.inf, np.inf)], above every finite [degree]. *)
Definition best : Type := option (R * nat * R).

Definition update (st : best) (i : nat) (d : R * R) : best :=
  match st with
  | None => Some (fst d, i, snd d)
  | Some (min_degree, _, _) =>
      if Rltb (fst d) min_degree then Some (fst d, i, snd d) else st
  end.

Fixpoint scan (lines_no_begin lines_no_end : list line)
  (group : list art_line) (i : nat) (st : best) : result best :=
  match group with
  | [] => Ok st
  | a :: rest =>
      d <- candidate_angles lines_no_begin lines_no_end a ;;
      scan lines_no_begin lines_no_end rest (S i) (update st i d)
  end.

(** One pass of the outer loop: the row appended to [filtered_lines]. *)
Definition choose (lines_no_begin lines_no_end : list line) (group : list art_line)
  : result connector :=
  st <- scan lines_no_begin lines_no_end group 0 None ;;
  match st with
  | None => Raise TypeError
  | Some (min_degree, max_idx, min_degree_art) =>
      a <- getitem group max_idx ;;
      Ok (mkConnector (e_idx a) (b_idx a) min_degree min_degree_art (art_geometry a))
  end.

Definition connector_leb (a b : connector) : bool :=
  Z.ltb (c_e_idx a) (c_e_idx b)
  || (Z.eqb (c_e_idx a) (c_e_idx b) && Z.leb (c_b_idx a) (c_b_idx b)).

Definition keep (angle_treshold : R) (c : connector) : bool :=
  Rltb (angle c) angle_treshold
  && negb (Z.eqb (c_e_idx c) (c_b_idx c))
  && Rltb (angle_art c) angle_treshold.

Definition calculate_cos (lines_no_begin : list line) (artificial_lines : list art_line)
  (lines_no_end : list line) (angle_treshold : R) : result (list connector) :=
  rows <- mapM (fun g => choose lines_no_begin lines_no_end (snd g))
               (groupby artificial_lines) ;;
  match rows with
  | [] => Raise KeyError
  | _ => Ok (filter (keep angle_treshold) (sort connector_leb rows))
  end.

(** ** The convergence loop *)

Record state : Type := mkState {
  lines_no_end : list line;
  lines_no_begin : list line;
  result_lines : list connector;
  previous_result_length : nat
}.

(** [lines_no_begin['first'] = column]. *)
Definition set_first (df : list line) (column : list Z) : result (list (line * Z)) :=
  if length df =? length column then Ok (combine df column) else Raise ValueError.

(** The body of [while 1]; the boolean is [true] on [break]. *)
Definition iteration (angle_threshold : R) (s : state) : result (bool * state) :=
  firsts <- first_column (lines_no_end s) (lines_no_begin s) ;;
  with_first <- set_first (lines_no_begin s) firsts ;;
  artificial_lines <- generate_artificial_lines with_first (lines_no_end s) ;;
  filtered_lines <- calculate_cos (lines_no_begin s) artificial_lines
                                  (lines_no_end s) angle_threshold ;;
  let result_lines' := result_lines s ++ filtered_lines in
  no_begin' <- drop (lines_no_begin s) (map c_b_idx filtered_lines) ;;
  no_end' <- drop (lines_no_end s) (map c_e_idx filtered_lines) ;;
  if Z.ltb (Z.abs (Z.of_nat (previous_result_length s) - Z.of_nat (length result_lines'))) 5
  then Ok (true, mkState no_end' no_begin' result_lines' (previous_result_length s))
  else Ok (false, mkState no_end' no_begin' result_lines' (length result_lines')).

Inductive outcome : Type :=
| Done (s : state)
| Raised (e : exception)
| OutOfFuel.

Fixpoint loop (fuel : nat) (angle_threshold : R) (s : state) : outcome :=
  match fuel with
  | O => OutOfFuel
  | S fuel' =>
      match iteration angle_threshold s with
      | Raise e => Raised e
      | Ok (true, s') => Done s'
      | Ok (false, s') => loop fuel' angle_threshold s'
      end
  end.

Definition initial (no_end no_begin : list line) : state :=
  mkState no_end no_begin [] 0.

(** [main] from the frame read by [read_shp] to the end of the loop. *)
Definition main (fuel : nat) (df : list feature) (angle_threshold : R) : outcome :=
  match get_lines df with
  | Raise e => Raised e
  | Ok (no_end, no_begin) => loop fuel angle_threshold (initial no_end no_begin)
  end.

(** ** Specification vocabulary *)

(** The bearing of the specification: [atan2(dy, dx)] in degrees. *)
Definition bearing (p q : point) : R :=
  degrees (atan2 (snd q - snd p) (fst q - fst p)).

(** Lines 217 to 224 of [main]: the accepted connectors of a round. *)
Definition round_connectors (angle_threshold : R) (s : state) : result (list connector) :=
  firsts <- first_column (lines_no_end s) (lines_no_begin s) ;;
  with_first <- set_first (lines_no_begin s) firsts ;;
  artificial_lines <- generate_artificial_lines with_first (lines_no_end s) ;;
  calculate_cos (lines_no_begin s) artificial_lines (lines_no_end s) angle_threshold.

(** A pool of a well-formed input: unique ids, two coordinates per line. *)
Definition wf_pool (df : list line) : Prop :=
  NoDup (ids df) /\ Forall (fun l => 2 <= length (geometry l)) df.

(** The state at the head of a round: two well-formed pools, and
    [previous_result_length] is the length of [result_lines]. *)
Definition wf_state (s : state) : Prop :=
  wf_pool (lines_no_end s) /\ wf_pool (lines_no_begin s)
  /\ previous_result_length s = length (result_lines s).

(** No id is the source of two accumulated connectors or the destination
    of two, and a matched id is no longer in its pool. *)
Definition matched_once (s : state) : Prop :=
  NoDup (map c_e_idx (result_lines s))
  /\ NoDup (map c_b_idx (result_lines s))
  /\ forall c, In c (result_lines s) ->
       ~ In (c_e_idx c) (ids (lines_no_end s))
       /\ ~ In (c_b_idx c) (ids (lines_no_begin s)).

(** [reaches t s s']: the loop, started in [s], is at the head of a round
    in [s']. *)
Inductive reaches (angle_threshold : R) (s : state) : state -> Prop :=
| reaches_here : reaches angle_threshold s s
| reaches_next s1 s2 :
    reaches angle_threshold s s1 ->
    iteration angle_threshold s1 = Ok (false, s2) ->
    reaches angle_threshold s s2.

(** ** Example inputs and pools *)

(** Two lines on one axis with a gap between them. *)
Definition ex_gap : list feature :=
  [mkFeature 1 [(-1, 0); (0, 0)]; mkFeature 2 [(1, 0); (2, 0)]]%R.

Definition ex_gap_pool : list line :=
  [mkLine 1 [(-1, 0); (0, 0)] (-1, 0) (0, 0);
   mkLine 2 [(1, 0); (2, 0)] (1, 0) (2, 0)]%R.

(** Two lines that close a ring: every end point is a start point. *)
Definition ex_ring : list feature :=
  [mkFeature 1 [(0, 0); (1, 0)]; mkFeature 2 [(1, 0); (0, 0)]]%R.

(** Three targets for the destination of [ex_no_begin]. *)
Definition ex_three : list line :=
  [mkLine 1 [(0, 0); (1, 0)] (0, 0) (1, 0);
   mkLine 3 [(0, 9); (1, 9)] (0, 9) (1, 9);
   mkLine 4 [(0, -7); (2, -7)] (0, -7) (2, -7)]%R.

(** Two destinations with the same bearing, in the pool in decreasing id
    order, and their candidates from line 1 of [ex_three]. *)
Definition ex_tie : list line :=
  [mkLine 3 [(2, 1); (3, 1)] (2, 1) (3, 1);
   mkLine 2 [(2, 0); (3, 0)] (2, 0) (3, 0)]%R.

Definition ex_tie_artificial : list art_line :=
  [mkArt 1 2 [(1, 0); (2, 0)]; mkArt 1 3 [(1, 0); (2, 1)]]%R.

(** A destination that starts straight north of the end of line 1 of
    [ex_three], and its candidate. *)
Definition ex_turn : list line :=
  [mkLine 5 [(1, 1); (2, 1)] (1, 1) (2, 1)]%R.

Definition ex_turn_artificial : list art_line :=
  [mkArt 1 5 [(1, 0); (1, 1)]]%R.

(** Five targets with a destination one unit east of their end, three
    targets far away, and a destination straight north of the end of
    target 6. *)
Definition ex_targets : list line :=
  [mkLine 1 [(0, 10); (1, 10)] (0, 10) (1, 10);
   mkLine 2 [(0, 20); (1, 20)] (0, 20) (1, 20);
   mkLine 3 [(0, 30); (1, 30)] (0, 30) (1, 30);
   mkLine 4 [(0, 40); (1, 40)] (0, 40) (1, 40);
   mkLine 5 [(0, 50); (1, 50)] (0, 50) (1, 50);
   mkLine 6 [(0, 100); (1, 100)] (0, 100) (1, 100);
   mkLine 7 [(0, 200); (1, 200)] (0, 200) (1, 200);
   mkLine 8 [(0, 300); (1, 300)] (0, 300) (1, 300)]%R.

Definition ex_dests : list line :=
  [mkLine 11 [(2, 10); (3, 10)] (2, 10) (3, 10);
   mkLine 12 [(2, 20); (3, 20)] (2, 20) (3, 20);
   mkLine 13 [(2, 30); (3, 30)] (2, 30) (3, 30);
   mkLine 14 [(2, 40); (3, 40)] (2, 40) (3, 40);
   mkLine 15 [(2, 50); (3, 50)] (2, 50) (3, 50);
   mkLine 16 [(1, 101); (2, 101)] (1, 101) (2, 101)]%R.

Definition ex_connectors : list connector :=
  [mkConnector 1 11 0 0 [(1, 10); (2, 10)];
   mkConnector 2 12 0 0 [(1, 20); (2, 20)];
   mkConnector 3 13 0 0 [(1, 30); (2, 30)];
   mkConnector 4 14 0 0 [(1, 40); (2, 40)];
   mkConnector 5 15 0 0 [(1, 50); (2, 50)]]%R.

(** The state after the first round on [ex_targets] and [ex_dests]. *)
Definition ex_rest : state :=
  mkState (skipn 5 ex_targets) (skipn 5 ex_dests) ex_connectors 5.

(** [angles_of nb ne a dg dga]: [dg] is the absolute difference between
    the bearing of the last segment of the target line of [a] and the
    bearing of the first segment of its destination line, and [dga] the
    absolute difference between the bearing of the connector and the bearing
    of the first segment of the destination line. *)
Definition angles_of (nb ne : list line) (a : art_line) (dg dga : R) : Prop :=
  exists t d pre p1 q1 p2 q2 post pa qa rest,
    loc ne (e_idx a) = Ok t /\ loc nb (b_idx a) = Ok d
    /\ geometry t = pre ++ [p1; q1] /\ geometry d = p2 :: q2 :: post
    /\ art_geometry a = pa :: qa :: rest
    /\ dg = Rabs (bearing p1 q1 - bearing p2 q2)
    /\ dga = Rabs (bearing pa qa - bearing p2 q2).

(** [row] is built from the candidate of [group] at position [k]. *)
Definition built_from (group : list art_line) (k : nat) (row : connector) : Prop :=
  exists a, nth_error group k = Some a
    /\ c_e_idx row = e_idx a /\ c_b_idx row = b_idx a
    /\ c_geometry row = art_geometry a.

(** The acceptance rule of the specification. *)
Definition accepted (threshold : R) (row : connector) : Prop :=
  (angle row < threshold)%R /\ (angle_art row < threshold)%R
  /\ c_e_idx row <> c_b_idx row.

(** [row] comes from position [k] of [group], carries the two angles of
    that candidate, and no candidate of the group has a smaller [angle]. *)
Definition least_angle (nb ne : list line) (group : list art_line)
  (k : nat) (row : connector) : Prop :=
  built_from group k row
  /\ (forall a, nth_error group k = Some a ->
        angles_of nb ne a (angle row) (angle_art row))
  /\ (forall a' dg' dga', In a' group -> angles_of nb ne a' dg' dga' ->
        (angle row <= dg')%R).

(** Every candidate before position [k] has a larger angle, and among the
    candidates with the angle of [row], [row] has the least destination. *)
Definition first_least (nb ne : list line) (group : list art_line)
  (k : nat) (row : connector) : Prop :=
  (forall j a' dg' dga', j < k -> nth_error group j = Some a' ->
        angles_of nb ne a' dg' dga' -> (angle row < dg')%R)
  /\ (forall a' dga', In a' group -> angles_of nb ne a' (angle row) dga' ->
        (c_b_idx row <= b_idx a')%Z).

(** The distance from the query [q] to the sample at position [i]. *)
Definition dist_to (n_a : list point) (q : point) (i : nat) : R :=
  nth i (map (dist2 q) n_a) 0%R.

(** [row] lists distinct positions of [n_a], nearest to [q] first, and no
    position left out is nearer than a position listed. *)
Definition nearest_first (n_a : list point) (q : point) (row : list nat) : Prop :=
  NoDup row
  /\ (forall i, In i row -> i < length n_a)
  /\ StronglySorted (fun i j => (dist_to n_a q i <= dist_to n_a q j)%R) row
  /\ (forall i j, In i row -> j < length n_a -> ~ In j row ->
        (dist_to n_a q i <= dist_to n_a q j)%R).

(** [t] is a line of the pool [ne] whose end point is nearest to the start
    point of [l]. *)
Definition nearest_target (ne : list line) (l t : line) : Prop :=
  In t ne
  /\ forall t', In t' ne ->
       (dist2 (b_point l) (e_point t) <= dist2 (b_point l) (e_point t'))%R.

(** [a] is the candidate of [l]: from the end point of a nearest target to
    the start point of [l]. *)
Definition connects (ne : list line) (l : line) (a : art_line) : Prop :=
  b_idx a = idx l
  /\ exists t, nearest_target ne l t /\ e_idx a = idx t
               /\ art_geometry a = [e_point t; b_point l].

(** ** Example for the filter *)

(** A target whose last two coordinates coincide, and a destination further
    east on the same axis. *)
Definition ex_no_end : list line :=
  [mkLine 1 [(0, 0); (1, 0); (1, 0)] (0, 0) (1, 0)]%R.
Definition ex_no_begin : list line :=
  [mkLine 2 [(2, 0); (3, 0)] (2, 0) (3, 0)]%R.
Definition ex_artificial : list art_line :=
  [mkArt 1 2 [(1, 0); (2, 0)]]%R.

(** The pure part of [scan], on the angles of the candidates. *)
Fixpoint scan_angles (ds : list (R * R)) (i : nat) (st : best) : best :=
  match ds with
  | [] => st
  | d :: rest => scan_angles rest (S i) (update st i d)
  end.

(** ** The rest of [main.py] *)


(** [l] is the row of the feature [f]: same id and geometry, the first
    coordinate as [b_point] and the last as [e_point]. *)
Definition row_of (f : feature) (l : line) : Prop :=
  idx l = fid f /\ geometry l = coords f
  /\ hd_error (coords f) = Some (b_point l)
  /\ e_point l = last (coords f) (b_point l).

(** [read_shp] after [gpd.read_file]: the rows of the file, indexed and
    sorted by [id].  Rows with the same id stay in file order here; pandas
    leaves their order open, and no property below depends on it. *)
Definition read_shp (file : list feature) : list feature :=
  sort (fun a b => Z.leb (fid a) (fid b)) file.

Module Names.
Import Strings.String Strings.Ascii.

(** [astype(str)] on an integer column. *)
Definition str (z : Z) : string :=
  DecimalString.NilZero.string_of_int (Z.to_int z).

(** Line 177 of [prepare_df_for_concatenation]: the column [naam]. *)
Definition naam (c : connector) : string :=
  ("Artificial_" ++ str (c_e_idx c) ++ "_" ++ str (c_b_idx c))%string.

(** No character of [s] is an underscore. *)
Fixpoint plain (s : string) : Prop :=
  match s with
  | EmptyString => True
  | String c s' => c <> "_"%char /\ plain s'
  end.

End Names.

(** ** An example network *)

(** Line 1 leads into line 2; line 3 continues line 2 after a gap; line 4
    lies far away. *)
Definition ex_network : list feature :=
  [mkFeature 1 [(-5, -5); (0, 0)];
   mkFeature 2 [(0, 0); (1, 0)];
   mkFeature 3 [(2, 0); (4, 0)];
   mkFeature 4 [(100, 100); (101, 100)]]%R.

Definition ex_network_end : list line :=
  [mkLine 2 [(0, 0); (1, 0)] (0, 0) (1, 0);
   mkLine 3 [(2, 0); (4, 0)] (2, 0) (4, 0);
   mkLine 4 [(100, 100); (101, 100)] (100, 100) (101, 100)]%R.

Definition ex_network_begin : list line :=
  [mkLine 1 [(-5, -5); (0, 0)] (-5, -5) (0, 0);
   mkLine 3 [(2, 0); (4, 0)] (2, 0) (4, 0);
   mkLine 4 [(100, 100); (101, 100)] (100, 100) (101, 100)]%R.

Definition ex_network_done : state :=
  mkState [mkLine 3 [(2, 0); (4, 0)] (2, 0) (4, 0);
           mkLine 4 [(100, 100); (101, 100)] (100, 100) (101, 100)]%R
          [mkLine 1 [(-5, -5); (0, 0)] (-5, -5) (0, 0);
           mkLine 4 [(100, 100); (101, 100)] (100, 100) (101, 100)]%R
          [mkConnector 2 3 0 0 [(1, 0); (2, 0)]%R]
          0.

(** A chain of two lines: the end of line 1 is the start of line 2. *)
Definition ex_chain : list feature :=
  [mkFeature 1 [(0, 0); (1, 0)]; mkFeature 2 [(1, 0); (2, 0)]]%R.

(** * Properties *)

(** ** The error monad *)

Lemma bind_ok {A B : Type} (m : result A) (k : A -> result B) (b : B) :
  bind m k = Ok b -> exists a, m = Ok a /\ k a = Ok b.
Proof. destruct m as [a|e]; simpl; intros H; [eauto | discriminate]. Qed.

Ltac inv_bind H :=
  let a := fresh "x" in
  let E := fresh "E" in
  apply bind_ok in H; destruct H as [a [E H]].

Lemma mapM_Forall2 {A B : Type} (f : A -> result B) (l : list A) (bs : list B) :
  mapM f l = Ok bs -> Forall2 (fun a b => f a = Ok b) l bs.
Proof.
  revert bs; induction l as [|a l IH]; simpl; intros bs H.
  - injection H as <-. constructor.
  - inv_bind H. inv_bind H. injection H as <-. constructor; auto.
Qed.

Lemma mapM_total {A B : Type} (f : A -> result B) (l : list A) :
  (forall a, In a l -> exists b, f a = Ok b) -> exists bs, mapM f l = Ok bs.
Proof.
  induction l as [|a l IH]; simpl; intros H; [eauto|].
  destruct (H a (or_introl eq_refl)) as [b ->].
  destruct IH as [bs ->]; [auto|]. simpl; eauto.
Qed.

Lemma mapM_raise {A B : Type} (f : A -> result B) (l : list A) (a : A) (e : exception) :
  In a l -> (forall a', In a' l -> f a' = Raise e \/ exists b, f a' = Ok b) ->
  f a = Raise e -> mapM f l = Raise e.
Proof.
  induction l as [|a0 l IH]; simpl; intros Hin Hall Ha; [contradiction|].
  destruct (Hall a0 (or_introl eq_refl)) as [->|[b Hb]]; [reflexivity|].
  rewrite Hb; simpl. destruct Hin as [->|Hin]; [congruence|].
  rewrite IH; auto.
Qed.

Lemma Forall2_length' {A B : Type} (P : A -> B -> Prop) l l' :
  Forall2 P l l' -> length l = length l'.
Proof. induction 1; simpl; auto. Qed.

Lemma Forall2_In_l {A B : Type} (P : A -> B -> Prop) l l' a :
  Forall2 P l l' -> In a l -> exists b, In b l' /\ P a b.
Proof.
  induction 1; simpl; [contradiction|].
  intros [->|Hin]; [eauto|]. destruct (IHForall2 Hin) as [b [? ?]]; eauto.
Qed.

Lemma Forall2_In_r {A B : Type} (P : A -> B -> Prop) l l' b :
  Forall2 P l l' -> In b l' -> exists a, In a l /\ P a b.
Proof.
  induction 1; simpl; [contradiction|].
  intros [->|Hin]; [eauto|]. destruct (IHForall2 Hin) as [a [? ?]]; eauto.
Qed.

Lemma Forall2_nth_error {A B : Type} (P : A -> B -> Prop) l l' i b :
  Forall2 P l l' -> nth_error l' i = Some b ->
  exists a, nth_error l i = Some a /\ P a b.
Proof.
  intros H; revert i; induction H; intros [|i]; simpl; try discriminate.
  - intros [= <-]; eauto.
  - auto.
Qed.

(** ** Comparisons on reals *)

Lemma Rltb_true (x y : R) : Rltb x y = true <-> (x < y)%R.
Proof. unfold Rltb; destruct (Rlt_dec x y); split; auto; discriminate. Qed.

Lemma Rltb_false (x y : R) : Rltb x y = false <-> (y <= x)%R.
Proof.
  unfold Rltb; destruct (Rlt_dec x y); split; auto; try discriminate; lra.
Qed.

Lemma Rleb_true (x y : R) : Rleb x y = true <-> (x <= y)%R.
Proof. unfold Rleb; destruct (Rle_dec x y); split; auto; discriminate. Qed.

Lemma Rleb_false (x y : R) : Rleb x y = false <-> (y < x)%R.
Proof.
  unfold Rleb; destruct (Rle_dec x y); split; auto; try discriminate; lra.
Qed.

Lemma Reqb_false (x y : R) : Reqb x y = false <-> x <> y.
Proof.
  unfold Reqb; destruct (Req_dec_T x y); split; auto; try discriminate.
  contradiction.
Qed.

Lemma Reqb_true (x y : R) : Reqb x y = true <-> x = y.
Proof. unfold Reqb; destruct (Req_dec_T x y); split; auto; discriminate. Qed.

Lemma point_eqb_true (p q : point) : point_eqb p q = true <-> p = q.
Proof.
  unfold point_eqb; destruct p, q; simpl.
  rewrite andb_true_iff, !Reqb_true. split; [intros [-> ->]|intros [= -> ->]]; auto.
Qed.

(** Comparisons between closed real expressions. *)
Ltac Rcompare :=
  repeat match goal with
  | |- context [Reqb ?x ?y] =>
      first [ replace (Reqb x y) with true by (symmetry; apply Reqb_true; simpl; lra)
            | replace (Reqb x y) with false by (symmetry; apply Reqb_false; simpl; lra) ]
  | |- context [Rltb ?x ?y] =>
      first [ replace (Rltb x y) with true by (symmetry; apply Rltb_true; simpl; lra)
            | replace (Rltb x y) with false by (symmetry; apply Rltb_false; simpl; lra) ]
  | |- context [Rleb ?x ?y] =>
      first [ replace (Rleb x y) with true by (symmetry; apply Rleb_true; simpl; lra)
            | replace (Rleb x y) with false by (symmetry; apply Rleb_false; simpl; lra) ]
  end.

Ltac Reval :=
  repeat (cbn -[AngleBtw2Points Rabs Rltb Rleb Reqb dist2 point_eqb];
          unfold dist2, point_eqb;
          cbn -[AngleBtw2Points Rabs Rltb Rleb Reqb];
          progress Rcompare);
  cbn -[AngleBtw2Points Rabs Rltb Rleb Reqb].

(** ** Bearings *)

Lemma AngleBtw2Points_bearing (a b : point) : AngleBtw2Points a b = bearing a b.
Proof. reflexivity. Qed.

Lemma atan2_origin : atan2 0 0 = 0%R.
Proof.
  unfold atan2.
  destruct (Rlt_dec 0 0) as [H|_]; [exfalso; lra|reflexivity].
Qed.

Lemma atan2_east (x : R) : (0 < x)%R -> atan2 0 x = 0%R.
Proof.
  intros Hx. unfold atan2. destruct (Rlt_dec 0 x) as [_|H]; [|contradiction].
  unfold Rdiv. rewrite Rmult_0_l. apply atan_0.
Qed.

Lemma atan2_north (y : R) : (0 < y)%R -> atan2 y 0 = (PI / 2)%R.
Proof.
  intros Hy. unfold atan2.
  destruct (Rlt_dec 0 0) as [H|_]; [exfalso; lra|].
  destruct (Rlt_dec 0 y) as [_|H]; [reflexivity|contradiction].
Qed.

Lemma atan2_south (y : R) : (y < 0)%R -> atan2 y 0 = (- (PI / 2))%R.
Proof.
  intros Hy. unfold atan2.
  destruct (Rlt_dec 0 0) as [H|_]; [exfalso; lra|].
  destruct (Rlt_dec 0 y) as [H|_]; [exfalso; lra|].
  destruct (Rlt_dec y 0) as [_|H]; [reflexivity|contradiction].
Qed.

Lemma degrees_0 : degrees 0 = 0%R.
Proof. unfold degrees. apply Rmult_0_l. Qed.

Lemma degrees_half_PI : degrees (PI / 2) = 90%R.
Proof. unfold degrees. pose proof PI_neq0. field. assumption. Qed.

Lemma degrees_opp (x : R) : degrees (- x) = (- degrees x)%R.
Proof. unfold degrees. ring. Qed.

Lemma AngleBtw2Points_same (p q : point) : p = q -> AngleBtw2Points p q = 0%R.
Proof.
  intros ->. unfold AngleBtw2Points; simpl.
  rewrite !Rminus_diag. rewrite atan2_origin. apply degrees_0.
Qed.

Lemma AngleBtw2Points_east (p q : point) :
  snd q = snd p -> (fst p < fst q)%R -> AngleBtw2Points p q = 0%R.
Proof.
  intros Hy Hx. unfold AngleBtw2Points; simpl.
  rewrite Hy, Rminus_diag, atan2_east by lra. apply degrees_0.
Qed.

Lemma AngleBtw2Points_north (p q : point) :
  fst q = fst p -> (snd p < snd q)%R -> AngleBtw2Points p q = 90%R.
Proof.
  intros Hx Hy. unfold AngleBtw2Points; simpl.
  rewrite Hx, Rminus_diag, atan2_north by lra. apply degrees_half_PI.
Qed.

Lemma AngleBtw2Points_south (p q : point) :
  fst q = fst p -> (snd q < snd p)%R -> AngleBtw2Points p q = (- 90)%R.
Proof.
  intros Hx Hy. unfold AngleBtw2Points; simpl.
  rewrite Hx, Rminus_diag, atan2_south by lra.
  rewrite degrees_opp, degrees_half_PI. reflexivity.
Qed.

(** Bearings of the segments of the examples, which point east or north
    or have no length, and the absolute values of their differences. *)
Ltac Rangles :=
  repeat match goal with
  | |- context [AngleBtw2Points ?p ?q] =>
      first [ rewrite (AngleBtw2Points_east p q) by (simpl; lra)
            | rewrite (AngleBtw2Points_north p q) by (simpl; lra)
            | rewrite (AngleBtw2Points_same p q) by reflexivity ]
  end;
  rewrite ?Rminus_diag, ?Rminus_0_r, ?Rabs_R0, ?(Rabs_pos_eq 90) by lra.

(** ** Insertion sort *)

Section SortFacts.
Context {A : Type} (leb : A -> A -> bool).
Hypothesis leb_total : forall x y, leb x y = true \/ leb y x = true.
Hypothesis leb_trans : forall x y z, leb x y = true -> leb y z = true -> leb x z = true.

Lemma insert_perm (x : A) (l : list A) : Permutation (insert leb x l) (x :: l).
Proof.
  induction l as [|y l IH]; simpl; [reflexivity|].
  destruct (leb x y); [reflexivity|].
  rewrite IH. apply perm_swap.
Qed.

Lemma sort_perm (l : list A) : Permutation (sort leb l) l.
Proof.
  induction l as [|x l IH]; simpl; [reflexivity|].
  rewrite insert_perm. auto.
Qed.

Lemma insert_sorted (x : A) (l : list A) :
  StronglySorted (fun a b => leb a b = true) l ->
  StronglySorted (fun a b => leb a b = true) (insert leb x l).
Proof.
  induction 1 as [|y l Hs IH Hy]; simpl.
  - repeat constructor.
  - destruct (leb x y) eqn:E.
    + constructor; [constructor; assumption|].
      constructor; [assumption|].
      rewrite Forall_forall in *. eauto.
    + constructor; [assumption|].
      rewrite Forall_forall in *. intros z Hz.
      apply (Permutation_in _ (insert_perm x l)) in Hz.
      destruct Hz as [<-|Hz]; [|auto].
      destruct (leb_total x y); congruence.
Qed.

Lemma sort_sorted (l : list A) :
  StronglySorted (fun a b => leb a b = true) (sort leb l).
Proof.
  induction l as [|x l IH]; simpl; [constructor|].
  apply insert_sorted; assumption.
Qed.
End SortFacts.

Lemma sort_In {A : Type} (leb : A -> A -> bool) (l : list A) (x : A) :
  In x (sort leb l) <-> In x l.
Proof.
  split; apply Permutation_in; [|symmetry]; apply sort_perm.
Qed.

Lemma StronglySorted_filter {A : Type} (R : A -> A -> Prop) (p : A -> bool) l :
  StronglySorted R l -> StronglySorted R (filter p l).
Proof.
  induction 1 as [|x l Hs IH Hx]; simpl; [constructor|].
  destruct (p x); [|assumption].
  constructor; [assumption|].
  rewrite Forall_forall in *. intros y Hy. apply filter_In in Hy. apply Hx, Hy.
Qed.

Lemma StronglySorted_nth_error {A : Type} (R : A -> A -> Prop) l i j x y :
  StronglySorted R l -> i < j ->
  nth_error l i = Some x -> nth_error l j = Some y -> R x y.
Proof.
  intros H; revert i j; induction H as [|a l Hs IH Ha]; intros i j Hij Hi Hj.
  - destruct i; discriminate.
  - destruct j as [|j]; [lia|]. simpl in Hj.
    destruct i as [|i]; simpl in Hi.
    + injection Hi as ->. rewrite Forall_forall in Ha.
      apply Ha. eapply nth_error_In; eassumption.
    + apply (IH i j); auto; lia.
Qed.

Lemma index_leb_total (a b : art_line) : index_leb a b = true \/ index_leb b a = true.
Proof.
  unfold index_leb.
  destruct (Z.ltb_spec (e_idx a) (e_idx b)), (Z.ltb_spec (e_idx b) (e_idx a)),
    (Z.eqb_spec (e_idx a) (e_idx b)), (Z.eqb_spec (e_idx b) (e_idx a)),
    (Z.leb_spec (b_idx a) (b_idx b)), (Z.leb_spec (b_idx b) (b_idx a));
    simpl; auto; lia.
Qed.

Lemma index_leb_trans (a b c : art_line) :
  index_leb a b = true -> index_leb b c = true -> index_leb a c = true.
Proof.
  unfold index_leb.
  destruct (Z.ltb_spec (e_idx a) (e_idx b)), (Z.ltb_spec (e_idx b) (e_idx c)),
    (Z.ltb_spec (e_idx a) (e_idx c)),
    (Z.eqb_spec (e_idx a) (e_idx b)), (Z.eqb_spec (e_idx b) (e_idx c)),
    (Z.eqb_spec (e_idx a) (e_idx c)),
    (Z.leb_spec (b_idx a) (b_idx b)), (Z.leb_spec (b_idx b) (b_idx c)),
    (Z.leb_spec (b_idx a) (b_idx c));
    simpl; auto; lia.
Qed.

(** ** The inner loop of [calculate_cos] *)

Lemma scan_scan_angles nb ne group i st :
  scan nb ne group i st =
  (ds <- mapM (candidate_angles nb ne) group ;; Ok (scan_angles ds i st)).
Proof.
  revert i st; induction group as [|a group IH]; intros i st; simpl; [reflexivity|].
  destruct (candidate_angles nb ne a) as [d|e]; simpl; [|reflexivity].
  rewrite IH. destruct (mapM (candidate_angles nb ne) group); reflexivity.
Qed.

(** What [scan_angles] returns: either the incoming state, which no later
    candidate beats, or the first candidate that beats the state and all
    candidates before it, and that no later candidate beats. *)
Lemma scan_angles_spec (ds : list (R * R)) :
  forall i st,
    match scan_angles ds i st with
    | None => st = None /\ ds = []
    | Some (m, k, ma) =>
        (st = Some (m, k, ma) /\ forall d, In d ds -> (m <= fst d)%R)
        \/ (exists j d, nth_error ds j = Some d /\ k = i + j /\ m = fst d /\ ma = snd d
            /\ (forall m0 k0 ma0, st = Some (m0, k0, ma0) -> (m < m0)%R)
            /\ (forall j' d', j' < j -> nth_error ds j' = Some d' -> (m < fst d')%R)
            /\ (forall d', In d' ds -> (m <= fst d')%R))
    end.
Proof.
  induction ds as [|d ds IH]; intros i st; simpl.
  - destruct st as [[[m k] ma]|]; auto.
    left; split; [reflexivity|contradiction].
  - specialize (IH (S i) (update st i d)).
    destruct (scan_angles ds (S i) (update st i d)) as [[[m k] ma]|].
    2:{ destruct IH as [IH _]. destruct st as [[[m0 k0] ma0]|]; simpl in IH;
        [destruct (Rltb (fst d) m0)|]; discriminate. }
    destruct IH as [[Hst Hmin]|(j & d' & Hj & Hk & Hm & Hma & Hbeat & Hbefore & Hmin)].
    + destruct st as [[[m0 k0] ma0]|]; simpl in Hst.
      * destruct (Rltb (fst d) m0) eqn:E.
        -- injection Hst as <- <- <-. right. exists 0, d. simpl.
           repeat split; auto; try lia.
           ++ intros m1 k1 ma1 [= <- <- <-]. apply Rltb_true; assumption.
           ++ intros d' [<-|Hd']; [lra|auto].
        -- left. split; [assumption|]. injection Hst as <- <- <-.
           apply Rltb_false in E. intros d' [<-|Hd']; auto.
      * injection Hst as <- <- <-. right. exists 0, d. simpl.
        repeat split; auto; try lia; try discriminate.
        intros d' [<-|Hd']; [lra|auto].
    + right. exists (S j), d'. simpl.
      assert (Hd : (m < fst d)%R /\
                   forall m0 k0 ma0, st = Some (m0, k0, ma0) -> (m < m0)%R).
      { destruct st as [[[m0 k0] ma0]|]; simpl in Hbeat.
        - destruct (Rltb (fst d) m0) eqn:E.
          + apply Rltb_true in E. specialize (Hbeat _ _ _ eq_refl).
            split; [assumption|]. intros m1 k1 ma1 [= <- <- <-]. lra.
          + apply Rltb_false in E. specialize (Hbeat _ _ _ eq_refl).
            split; [lra|]. intros m1 k1 ma1 [= <- <- <-]. assumption.
        - specialize (Hbeat _ _ _ eq_refl). split; [assumption|discriminate]. }
      destruct Hd as [Hd Hst].
      repeat split; auto; try lia.
      * intros [|j'] d'' Hlt; simpl.
        -- intros [= <-]. assumption.
        -- apply Hbefore. lia.
      * intros d'' [<-|Hd'']; [lra|auto].
Qed.

(** From the initial state, on a non-empty list: the first minimum. *)
Lemma scan_angles_first_min (ds : list (R * R)) :
  ds <> [] ->
  exists k d, scan_angles ds 0 None = Some (fst d, k, snd d)
    /\ nth_error ds k = Some d
    /\ (forall j' d', j' < k -> nth_error ds j' = Some d' -> (fst d < fst d')%R)
    /\ (forall d', In d' ds -> (fst d <= fst d')%R).
Proof.
  intros Hne. pose proof (scan_angles_spec ds 0 None) as H.
  destruct (scan_angles ds 0 None) as [[[m k] ma]|].
  - destruct H as [[H _]|(j & d & Hj & -> & -> & -> & _ & Hb & Hm)]; [discriminate|].
    exists j, d. simpl. auto.
  - destruct H as [_ H]. contradiction.
Qed.

Lemma lastn_app2 {A : Type} (pre : list A) (p q : A) : lastn 2 (pre ++ [p; q]) = [p; q].
Proof.
  unfold lastn. rewrite length_app. simpl.
  replace (length pre + 2 - 2) with (length pre) by lia.
  rewrite skipn_app, skipn_all, Nat.sub_diag. reflexivity.
Qed.

(** The row built for a group: the first candidate of least [degree]. *)
Lemma choose_first_min nb ne group ds :
  group <> [] -> mapM (candidate_angles nb ne) group = Ok ds ->
  exists k a d,
    choose nb ne group
    = Ok (mkConnector (e_idx a) (b_idx a) (fst d) (snd d) (art_geometry a))
    /\ nth_error group k = Some a
    /\ candidate_angles nb ne a = Ok d
    /\ (forall j a' d', j < k -> nth_error group j = Some a' ->
          candidate_angles nb ne a' = Ok d' -> (fst d < fst d')%R)
    /\ (forall a' d', In a' group -> candidate_angles nb ne a' = Ok d' ->
          (fst d <= fst d')%R).
Proof.
  intros Hne Hds. pose proof (mapM_Forall2 _ _ _ Hds) as HF.
  assert (Hds' : ds <> []).
  { intros ->. inversion HF; subst. contradiction. }
  destruct (scan_angles_first_min ds Hds') as (k & d & Hscan & Hk & Hbefore & Hmin).
  destruct (Forall2_nth_error _ _ _ k d HF Hk) as (a & Ha & Had).
  exists k, a, d. unfold choose. rewrite scan_scan_angles, Hds; simpl.
  rewrite Hscan. unfold getitem. rewrite Ha; simpl.
  repeat split; auto.
  - intros j a' d' Hj Ha' Hd'.
    assert (Hlen : j < length ds).
    { rewrite <- (Forall2_length' _ _ _ HF). apply nth_error_Some. congruence. }
    apply nth_error_Some in Hlen.
    destruct (nth_error ds j) as [d''|] eqn:E; [|congruence].
    destruct (Forall2_nth_error _ _ _ j d'' HF E) as (a'' & Ha'' & Had'').
    assert (a'' = a') by congruence; subst a''.
    assert (d'' = d') by congruence; subst d''.
    eapply Hbefore; eassumption.
  - intros a' d' Hin Hd'.
    destruct (Forall2_In_l _ _ _ a' HF Hin) as (d'' & Hin'' & Had'').
    assert (d'' = d') by congruence; subst d''. auto.
Qed.

Lemma choose_inv nb ne group row :
  choose nb ne group = Ok row ->
  group <> [] /\ exists ds, mapM (candidate_angles nb ne) group = Ok ds.
Proof.
  unfold choose. rewrite scan_scan_angles. intros H.
  inv_bind H. inv_bind E. injection E as <-.
  split; [|eauto]. intros ->. simpl in E0. injection E0 as <-.
  simpl in H. discriminate.
Qed.

(** ** Grouping *)

Lemma group_keys_In rows k : In k (group_keys rows) <-> In k (map e_idx rows).
Proof. unfold group_keys. rewrite sort_In. apply nodup_In. Qed.

Lemma group_keys_NoDup rows : NoDup (group_keys rows).
Proof.
  unfold group_keys.
  eapply Permutation_NoDup; [symmetry; apply sort_perm|]. apply NoDup_nodup.
Qed.

Lemma groupby_In rows k g :
  In (k, g) (groupby rows) ->
  In k (group_keys rows) /\ g = filter (fun a => Z.eqb (e_idx a) k) rows.
Proof.
  unfold groupby. rewrite in_map_iff. intros (k' & [= <- <-] & Hk). auto.
Qed.

Lemma groupby_fst rows : map fst (groupby rows) = group_keys rows.
Proof. unfold groupby. rewrite map_map; simpl. apply map_id. Qed.

Lemma groupby_nonempty rows k g : In (k, g) (groupby rows) -> g <> [].
Proof.
  intros H. apply groupby_In in H as [Hk ->].
  apply group_keys_In, in_map_iff in Hk as (a & <- & Ha).
  intros E. assert (Hin : In a (filter (fun a' => Z.eqb (e_idx a') (e_idx a)) rows)).
  { apply filter_In. split; [assumption|apply Z.eqb_refl]. }
  rewrite E in Hin. contradiction.
Qed.

Lemma groupby_member rows k g a :
  In (k, g) (groupby rows) -> In a g -> In a rows /\ e_idx a = k.
Proof.
  intros H Ha. apply groupby_In in H as [_ ->].
  apply filter_In in Ha as [Ha E]. apply Z.eqb_eq in E. auto.
Qed.

(** ** Angles of a candidate, in the words of the specification *)

Lemma lastn2_inv {A : Type} (l : list A) (p q : A) :
  getitem (lastn 2 l) 0 = Ok p -> getitem (lastn 2 l) 1 = Ok q ->
  exists pre, l = pre ++ [p; q].
Proof.
  unfold lastn, getitem. intros Hp Hq.
  exists (firstn (length l - 2) l).
  rewrite <- (firstn_skipn (length l - 2) l) at 1. f_equal.
  pose proof (length_skipn (length l - 2) l) as Hlen.
  destruct (skipn (length l - 2) l) as [|x [|y [|z r]]]; simpl in *;
    try discriminate; try lia.
  congruence.
Qed.

Lemma firstn2_inv {A : Type} (l : list A) (p q : A) :
  getitem (firstn 2 l) 0 = Ok p -> getitem (firstn 2 l) 1 = Ok q ->
  exists post, l = p :: q :: post.
Proof.
  unfold getitem. destruct l as [|x [|y r]]; simpl; try discriminate.
  intros [= <-] [= <-]. eauto.
Qed.

Lemma getitem2_inv {A : Type} (l : list A) (p q : A) :
  getitem l 0 = Ok p -> getitem l 1 = Ok q -> exists rest, l = p :: q :: rest.
Proof.
  unfold getitem. destruct l as [|x [|y r]]; simpl; try discriminate.
  intros [= <-] [= <-]. eauto.
Qed.

Lemma candidate_angles_angles_of nb ne a dg dga :
  candidate_angles nb ne a = Ok (dg, dga) <-> angles_of nb ne a dg dga.
Proof.
  split.
  - unfold candidate_angles. intros H.
    apply bind_ok in H as (t & Ht & H). apply bind_ok in H as (d & Hd & H).
    apply bind_ok in H as (p1 & Hp1 & H). apply bind_ok in H as (q1 & Hq1 & H).
    apply bind_ok in H as (p2 & Hp2 & H). apply bind_ok in H as (q2 & Hq2 & H).
    apply bind_ok in H as (pa & Hpa & H). apply bind_ok in H as (qa & Hqa & H).
    injection H as <- <-.
    destruct (lastn2_inv _ _ _ Hp1 Hq1) as [pre Hpre].
    destruct (firstn2_inv _ _ _ Hp2 Hq2) as [post Hpost].
    destruct (getitem2_inv _ _ _ Hpa Hqa) as [rest Hrest].
    exists t, d, pre, p1, q1, p2, q2, post, pa, qa, rest. repeat split; auto.
  - intros (t & d & pre & p1 & q1 & p2 & q2 & post & pa & qa & rest
            & Ht & Hd & Hgt & Hgd & Hga & -> & ->).
    unfold candidate_angles.
    rewrite Ht, Hd; simpl. rewrite Hgt, Hgd, Hga, lastn_app2. reflexivity.
Qed.

Lemma choose_least nb ne group :
  group <> [] ->
  (forall a, In a group -> exists dg dga, angles_of nb ne a dg dga) ->
  exists row k,
    choose nb ne group = Ok row
    /\ least_angle nb ne group k row
    /\ (forall j a' dg' dga', j < k -> nth_error group j = Some a' ->
          angles_of nb ne a' dg' dga' -> (angle row < dg')%R).
Proof.
  intros Hne Hall.
  destruct (mapM_total (candidate_angles nb ne) group) as [ds Hds].
  { intros a Ha. destruct (Hall a Ha) as (dg & dga & H).
    exists (dg, dga). apply candidate_angles_angles_of; assumption. }
  destruct (choose_first_min nb ne group ds Hne Hds) as (k & a & [dg dga] & Hc & Hk & Ha & Hb & Hm).
  simpl in *. eexists; exists k. split; [exact Hc|]. simpl.
  split; [split; [|split]|].
  - exists a. simpl. auto.
  - simpl. intros a0 Ha0. assert (a0 = a) by congruence; subst a0.
    apply candidate_angles_angles_of; assumption.
  - simpl. intros a' dg' dga' Hin H'. apply candidate_angles_angles_of in H'.
    apply (Hm a' (dg', dga') Hin H').
  - intros j a' dg' dga' Hj Hn H'. apply candidate_angles_angles_of in H'.
    apply (Hb j a' (dg', dga') Hj Hn H').
Qed.

Lemma bearing_south : bearing (0, 0)%R (0, -1)%R = (- 90)%R.
Proof.
  rewrite <- AngleBtw2Points_bearing. apply AngleBtw2Points_south; simpl; lra.
Qed.

(** C2. For every non-empty group whose candidates have a target and a
    destination line with two coordinates, [choose] returns one row: it is
    built from a candidate of the group, its [angle] is the least absolute
    difference between the bearing of the last segment of the target and the
    bearing of the first segment of the destination over the group, and its
    [angle_art] is the absolute difference between the bearing of the
    connector and that of the destination line for the same candidate.  A
    bearing is [degrees (atan2 dy dx)]; it is not normalised, the bearing
    due south is -90. *)
Theorem choose_minimises_angle nb ne group :
  group <> [] ->
  (forall a, In a group -> exists dg dga, angles_of nb ne a dg dga) ->
  (exists row k, choose nb ne group = Ok row /\ least_angle nb ne group k row)
  /\ (forall p q, AngleBtw2Points p q
                  = degrees (atan2 (snd q - snd p) (fst q - fst p)))
  /\ bearing (0, 0)%R (0, -1)%R = (- 90)%R.
Proof.
  intros Hne Hall. split; [|split; [reflexivity|apply bearing_south]].
  destruct (choose_least nb ne group Hne Hall) as (row & k & H1 & H2 & _). eauto.
Qed.

Lemma ex_tie_angles a :
  In a ex_tie_artificial -> exists dg dga, angles_of ex_tie ex_three a dg dga.
Proof.
  intros [<-|[<-|[]]]; do 2 eexists; apply candidate_angles_angles_of; reflexivity.
Qed.

Lemma choose_minimises_angle_witness :
  ex_tie_artificial <> []
  /\ exists row k, choose ex_tie ex_three ex_tie_artificial = Ok row
                   /\ least_angle ex_tie ex_three ex_tie_artificial k row.
Proof.
  split; [discriminate|].
  apply (choose_minimises_angle ex_tie ex_three ex_tie_artificial).
  - discriminate.
  - exact ex_tie_angles.
Defined.

(** ** The order inside a group *)

Lemma generate_artificial_lines_sorted with_first ne arts :
  generate_artificial_lines with_first ne = Ok arts ->
  StronglySorted (fun a b => index_leb a b = true) arts.
Proof.
  unfold generate_artificial_lines. intros H. inv_bind H. injection H as <-.
  apply sort_sorted; [exact index_leb_total|exact index_leb_trans].
Qed.

Lemma StronglySorted_weaken {A : Type} (R R' : A -> A -> Prop) l :
  (forall a b, In a l -> In b l -> R a b -> R' a b) ->
  StronglySorted R l -> StronglySorted R' l.
Proof.
  intros HR Hs. induction Hs as [|a l Hs IH Ha]; constructor.
  - apply IH. intros x y Hx Hy. apply HR; right; assumption.
  - rewrite Forall_forall in *. intros b Hb.
    apply HR; [left; reflexivity|right; assumption|auto].
Qed.

Lemma group_sorted arts key group :
  StronglySorted (fun a b => index_leb a b = true) arts ->
  In (key, group) (groupby arts) ->
  StronglySorted (fun a b => (b_idx a <= b_idx b)%Z) group.
Proof.
  intros Hs Hg. pose proof (groupby_In _ _ _ Hg) as [_ ->].
  apply (StronglySorted_filter _ (fun a => Z.eqb (e_idx a) key)) in Hs.
  revert Hs. apply StronglySorted_weaken.
  intros a b Ha Hb Hab.
  apply filter_In in Ha as [_ Ha]. apply filter_In in Hb as [_ Hb].
  apply Z.eqb_eq in Ha, Hb. unfold index_leb in Hab.
  destruct (Z.ltb_spec (e_idx a) (e_idx b)), (Z.eqb_spec (e_idx a) (e_idx b)),
    (Z.leb_spec (b_idx a) (b_idx b)); simpl in Hab; try discriminate; lia.
Qed.

(** C10. In a group of the frame returned by [generate_artificial_lines],
    the row chosen is the first candidate, in the order of the group, that
    attains the least angle: every candidate before it has a strictly larger
    angle, and every candidate of the group with the same angle has a
    destination id at least as large.  [choose] is a function of the group,
    and it returns a row on every such group. *)
Theorem tie_keeps_first with_first ne0 arts key group nb ne :
  generate_artificial_lines with_first ne0 = Ok arts ->
  In (key, group) (groupby arts) ->
  (forall a, In a group -> exists dg dga, angles_of nb ne a dg dga) ->
  exists row k,
    choose nb ne group = Ok row
    /\ least_angle nb ne group k row
    /\ first_least nb ne group k row.
Proof.
  intros Hgen Hg Hall.
  pose proof (groupby_nonempty _ _ _ Hg) as Hne.
  destruct (choose_least nb ne group Hne Hall) as (row & k & Hc & Hl & Hb).
  exists row, k. split; [assumption|]. split; [assumption|].
  split; [exact Hb|].
  intros a' dga' Hin Hang.
  destruct (In_nth_error _ _ Hin) as [j Hj].
  destruct Hl as ((a & Hk & _ & Hbi & _) & _ & _).
  rewrite Hbi.
  pose proof (group_sorted _ _ _ (generate_artificial_lines_sorted _ _ _ Hgen) Hg) as Hs.
  destruct (Nat.lt_trichotomy j k) as [Hlt|[->|Hgt]].
  - specialize (Hb j a' _ _ Hlt Hj Hang). lra.
  - assert (a' = a) by congruence. subst a'. lia.
  - apply (StronglySorted_nth_error _ _ k j a a' Hs Hgt Hk Hj).
Qed.

Lemma ex_tie_generate :
  generate_artificial_lines (combine ex_tie [1%Z; 1%Z]) ex_three
  = Ok ex_tie_artificial.
Proof. reflexivity. Qed.

(** Both candidates of the group have angle 0; the row is the one to
    line 2, the first of the group. *)
Lemma ex_tie_choose :
  choose ex_tie ex_three ex_tie_artificial
  = Ok (mkConnector 1 2 0 0 [(1, 0); (2, 0)]%R).
Proof.
  unfold choose, ex_tie, ex_three, ex_tie_artificial.
  cbn -[AngleBtw2Points Rabs Rltb].
  rewrite (AngleBtw2Points_east (0, 0)%R (1, 0)%R) by (simpl; lra).
  rewrite (AngleBtw2Points_east (2, 0)%R (3, 0)%R) by (simpl; lra).
  rewrite (AngleBtw2Points_east (2, 1)%R (3, 1)%R) by (simpl; lra).
  rewrite (AngleBtw2Points_east (1, 0)%R (2, 0)%R) by (simpl; lra).
  rewrite Rminus_diag, Rabs_R0.
  replace (Rltb 0 0) with false by (symmetry; apply Rltb_false; lra).
  reflexivity.
Qed.

Lemma tie_keeps_first_witness :
  exists row k,
    choose ex_tie ex_three ex_tie_artificial = Ok row
    /\ least_angle ex_tie ex_three ex_tie_artificial k row
    /\ first_least ex_tie ex_three ex_tie_artificial k row.
Proof.
  apply (tie_keeps_first (combine ex_tie [1%Z; 1%Z]) ex_three ex_tie_artificial
           1%Z ex_tie_artificial ex_tie ex_three).
  - exact ex_tie_generate.
  - left. reflexivity.
  - exact ex_tie_angles.
Defined.

(** ** The acceptance rule *)

Lemma keep_accepted thr row : keep thr row = true <-> accepted thr row.
Proof.
  unfold keep, accepted.
  rewrite !andb_true_iff, !Rltb_true, negb_true_iff, Z.eqb_neq. tauto.
Qed.

Lemma calculate_cos_inv nb arts ne thr out :
  calculate_cos nb arts ne thr = Ok out ->
  exists rows,
    Forall2 (fun g row => choose nb ne (snd g) = Ok row) (groupby arts) rows
    /\ out = filter (keep thr) (sort connector_leb rows).
Proof.
  unfold calculate_cos. intros H. inv_bind H.
  exists x. split; [apply mapM_Forall2; assumption|].
  destruct x; [discriminate|]. injection H as <-. reflexivity.
Qed.

Lemma choose_angles nb ne group row :
  choose nb ne group = Ok row ->
  forall a, In a group -> exists dg dga, angles_of nb ne a dg dga.
Proof.
  intros H a Ha. apply choose_inv in H as [_ [ds Hds]].
  apply mapM_Forall2 in Hds.
  destruct (Forall2_In_l _ _ _ a Hds Ha) as ([dg dga] & _ & Hd).
  exists dg, dga. apply candidate_angles_angles_of. assumption.
Qed.

(** C1. When [calculate_cos] returns, the row chosen for a group is in the
    output if and only if its [angle] (target bearing against destination
    bearing) is below the threshold, its [angle_art] (connector bearing
    against destination bearing) is below the threshold, and its source id
    differs from its destination id; every row of the output is the row
    chosen for some group, and none has equal source and destination ids. *)
Theorem accepted_iff_rule nb arts ne thr out :
  calculate_cos nb arts ne thr = Ok out ->
  (forall key group, In (key, group) (groupby arts) ->
     exists row k,
       choose nb ne group = Ok row
       /\ least_angle nb ne group k row
       /\ (In row out <-> accepted thr row))
  /\ (forall c, In c out ->
        exists key group, In (key, group) (groupby arts) /\ choose nb ne group = Ok c)
  /\ (forall c, In c out -> c_e_idx c <> c_b_idx c).
Proof.
  intros H. apply calculate_cos_inv in H as (rows & HF & ->).
  split; [|split].
  - intros key group Hg.
    destruct (Forall2_In_l _ _ _ _ HF Hg) as (row & Hrow & Hc). simpl in Hc.
    destruct (choose_least nb ne group (groupby_nonempty _ _ _ Hg)
                (choose_angles _ _ _ _ Hc)) as (row' & k & Hc' & Hl & _).
    assert (row' = row) by congruence. subst row'.
    exists row, k. split; [assumption|]. split; [assumption|].
    rewrite filter_In, sort_In, keep_accepted. tauto.
  - intros c Hc. apply filter_In in Hc as [Hc _]. apply sort_In in Hc.
    destruct (Forall2_In_r _ _ _ _ HF Hc) as ([key group] & Hg & Hch).
    exists key, group. auto.
  - intros c Hc. apply filter_In in Hc as [_ Hc].
    apply keep_accepted in Hc. apply Hc.
Qed.

(** The example frames: the connector from line 1 to line 2 is accepted
    with both angles 0, although the last segment of line 1 has no length. *)
Lemma ex_calculate_cos :
  calculate_cos ex_no_begin ex_artificial ex_no_end 5
  = Ok [mkConnector 1 2 0 0 [(1, 0); (2, 0)]%R].
Proof.
  unfold calculate_cos, ex_no_begin, ex_artificial, ex_no_end.
  cbn -[AngleBtw2Points Rabs Rltb].
  rewrite (AngleBtw2Points_same (1, 0)%R (1, 0)%R) by reflexivity.
  rewrite (AngleBtw2Points_east (2, 0)%R (3, 0)%R) by (simpl; lra).
  rewrite (AngleBtw2Points_east (1, 0)%R (2, 0)%R) by (simpl; lra).
  rewrite Rminus_diag, Rabs_R0.
  unfold keep; simpl.
  replace (Rltb 0 5) with true by (symmetry; apply Rltb_true; lra).
  reflexivity.
Qed.

(** The connector to [ex_turn] leaves line 1 at a right angle to the
    destination: its [angle] is 0, its [angle_art] is 90, it is rejected. *)
Lemma ex_turn_calculate_cos :
  calculate_cos ex_turn ex_turn_artificial ex_three 5 = Ok [].
Proof.
  unfold calculate_cos, ex_turn, ex_turn_artificial, ex_three.
  cbn -[AngleBtw2Points Rabs Rltb].
  rewrite (AngleBtw2Points_east (0, 0)%R (1, 0)%R) by (simpl; lra).
  rewrite (AngleBtw2Points_east (1, 1)%R (2, 1)%R) by (simpl; lra).
  rewrite (AngleBtw2Points_north (1, 0)%R (1, 1)%R) by (simpl; lra).
  rewrite Rminus_diag, Rabs_R0, Rminus_0_r, (Rabs_pos_eq 90) by lra.
  unfold keep; simpl c_e_idx; simpl c_b_idx; simpl angle; simpl angle_art.
  replace (Rltb 0 5) with true by (symmetry; apply Rltb_true; lra).
  replace (Rltb 90 5) with false by (symmetry; apply Rltb_false; lra).
  reflexivity.
Qed.

Lemma accepted_iff_rule_witness :
  In (1%Z, ex_artificial) (groupby ex_artificial)
  /\ exists row k,
       choose ex_no_begin ex_no_end ex_artificial = Ok row
       /\ least_angle ex_no_begin ex_no_end ex_artificial k row
       /\ (In row [mkConnector 1 2 0 0 [(1, 0); (2, 0)]%R] <-> accepted 5 row).
Proof.
  split; [left; reflexivity|].
  apply (proj1 (accepted_iff_rule ex_no_begin ex_artificial ex_no_end 5
                  [mkConnector 1 2 0 0 [(1, 0); (2, 0)]%R] ex_calculate_cos)
           1%Z ex_artificial).
  left. reflexivity.
Defined.

(** ** Segments without length *)

(** C8, as the code has it.  The bearing of a segment whose two coordinates
    coincide is 0: no fault is raised and no candidate is set aside.  The
    angles of a candidate are computed from it by the same formula,
    whichever of its three segments is degenerate. *)
Theorem zero_length_bearing_is_zero :
  (forall p, AngleBtw2Points p p = 0%R)
  /\ (forall nb ne a t d pre p p2 q2 post pa qa,
        loc ne (e_idx a) = Ok t -> loc nb (b_idx a) = Ok d ->
        geometry t = pre ++ [p; p] -> geometry d = p2 :: q2 :: post ->
        art_geometry a = [pa; qa] ->
        candidate_angles nb ne a
        = Ok (Rabs (0 - bearing p2 q2), Rabs (bearing pa qa - bearing p2 q2)))
  /\ (forall nb ne a t d pre p1 q1 p post pa qa,
        loc ne (e_idx a) = Ok t -> loc nb (b_idx a) = Ok d ->
        geometry t = pre ++ [p1; q1] -> geometry d = p :: p :: post ->
        art_geometry a = [pa; qa] ->
        candidate_angles nb ne a
        = Ok (Rabs (bearing p1 q1 - 0), Rabs (bearing pa qa - 0)))
  /\ (forall nb ne a t d pre p1 q1 p2 q2 post p,
        loc ne (e_idx a) = Ok t -> loc nb (b_idx a) = Ok d ->
        geometry t = pre ++ [p1; q1] -> geometry d = p2 :: q2 :: post ->
        art_geometry a = [p; p] ->
        candidate_angles nb ne a
        = Ok (Rabs (bearing p1 q1 - bearing p2 q2), Rabs (0 - bearing p2 q2))).
Proof.
  assert (H0 : forall p, bearing p p = 0%R).
  { intros p. rewrite <- AngleBtw2Points_bearing. apply AngleBtw2Points_same.
    reflexivity. }
  split; [intros p; apply AngleBtw2Points_same; reflexivity|].
  split; [|split]; intros; rewrite <- (H0 p);
    apply candidate_angles_angles_of; unfold angles_of;
    repeat eexists; eauto.
Qed.

Lemma zero_length_bearing_is_zero_witness :
  candidate_angles ex_no_begin ex_no_end (mkArt 1 2 [(1, 0); (2, 0)]%R)
  = Ok (Rabs (0 - bearing (2, 0)%R (3, 0)%R),
        Rabs (bearing (1, 0)%R (2, 0)%R - bearing (2, 0)%R (3, 0)%R)).
Proof.
  apply (proj1 (proj2 zero_length_bearing_is_zero)
           ex_no_begin ex_no_end (mkArt 1 2 [(1, 0); (2, 0)]%R)
           (mkLine 1 [(0, 0); (1, 0); (1, 0)] (0, 0) (1, 0))%R
           (mkLine 2 [(2, 0); (3, 0)] (2, 0) (3, 0))%R
           [(0, 0)%R] (1, 0)%R (2, 0)%R (3, 0)%R [] (1, 0)%R (2, 0)%R);
    reflexivity.
Defined.

(** C8 fails: the last segment of line 1 of the example has no length, and
    the candidate built on it is accepted. *)
Lemma zero_length_candidate_accepted :
  ~ (forall nb arts ne thr out a t p,
       calculate_cos nb arts ne thr = Ok out ->
       In a arts -> loc ne (e_idx a) = Ok t -> lastn 2 (geometry t) = [p; p] ->
       forall c, In c out -> ~ (c_e_idx c = e_idx a /\ c_b_idx c = b_idx a)).
Proof.
  intros H.
  apply (H ex_no_begin ex_artificial ex_no_end 5%R _
           (mkArt 1 2 [(1, 0); (2, 0)]%R)
           (mkLine 1 [(0, 0); (1, 0); (1, 0)] (0, 0) (1, 0))%R (1, 0)%R
           ex_calculate_cos (or_introl eq_refl) eq_refl eq_refl
           (mkConnector 1 2 0 0 [(1, 0); (2, 0)]%R) (or_introl eq_refl)).
  split; reflexivity.
Qed.

(** ** Nearest neighbours *)

Lemma StronglySorted_app_inv' {A : Type} (R : A -> A -> Prop) l1 l2 :
  StronglySorted R (l1 ++ l2) ->
  StronglySorted R l1 /\ StronglySorted R l2
  /\ forall x y, In x l1 -> In y l2 -> R x y.
Proof.
  induction l1 as [|a l1 IH]; simpl; intros H.
  - split; [constructor|]. split; [assumption|contradiction].
  - inversion H as [|? ? Hs Ha]; subst. destruct (IH Hs) as (H1 & H2 & H12).
    rewrite Forall_forall in Ha.
    split; [|split; [assumption|]].
    + constructor; [assumption|]. rewrite Forall_forall. intros x Hx.
      apply Ha, in_or_app. auto.
    + intros x y [<-|Hx] Hy; [apply Ha, in_or_app|]; auto.
Qed.

Lemma In_firstn {A : Type} (n : nat) (l : list A) (x : A) :
  In x (firstn n l) -> In x l.
Proof.
  intros H. rewrite <- (firstn_skipn n l). apply in_or_app. auto.
Qed.

Lemma argsort_perm dists : Permutation (argsort dists) (seq 0 (length dists)).
Proof. apply sort_perm. Qed.

Lemma argsort_sorted dists :
  StronglySorted (fun i j => (nth i dists 0 <= nth j dists 0)%R) (argsort dists).
Proof.
  unfold argsort.
  eapply StronglySorted_weaken;
    [|apply (sort_sorted (fun i j => Rleb (nth i dists 0%R) (nth j dists 0%R)))].
  - intros a b _ _ H. apply Rleb_true in H. exact H.
  - intros x y. rewrite !Rleb_true. lra.
  - intros x y z. rewrite !Rleb_true. lra.
Qed.

Lemma firstn_argsort n dists :
  n <= length dists ->
  let row := firstn n (argsort dists) in
  length row = n /\ NoDup row
  /\ (forall i, In i row -> i < length dists)
  /\ StronglySorted (fun i j => (nth i dists 0 <= nth j dists 0)%R) row
  /\ (forall i j, In i row -> j < length dists -> ~ In j row ->
        (nth i dists 0 <= nth j dists 0)%R).
Proof.
  intros Hn row.
  pose proof (argsort_perm dists) as Hp.
  pose proof (argsort_sorted dists) as Hs.
  assert (Hnd : NoDup (argsort dists)).
  { eapply Permutation_NoDup; [symmetry; exact Hp|apply seq_NoDup]. }
  rewrite <- (firstn_skipn n (argsort dists)) in Hs, Hnd.
  fold row in Hs, Hnd.
  apply StronglySorted_app_inv' in Hs as (Hs1 & _ & Hs12).
  split; [|split; [|split; [|split]]].
  - unfold row. rewrite length_firstn, (Permutation_length Hp), length_seq. lia.
  - apply NoDup_app_remove_r in Hnd. assumption.
  - intros i Hi. unfold row in Hi. apply In_firstn in Hi.
    apply (Permutation_in _ Hp), in_seq in Hi. lia.
  - assumption.
  - intros i j Hi Hj Hnj. apply Hs12; [assumption|].
    assert (Hin : In j (argsort dists)).
    { apply (Permutation_in _ (Permutation_sym Hp)), in_seq. lia. }
    rewrite <- (firstn_skipn n (argsort dists)) in Hin.
    apply in_app_or in Hin as [Hin|Hin]; [contradiction|assumption].
Qed.

Lemma kneighbors_raise k n_a n_b :
  length n_a < k -> kneighbors k n_a n_b = Raise ValueError.
Proof.
  intros H. unfold kneighbors.
  destruct n_a as [|a n_a]; [reflexivity|]. destruct n_b as [|b n_b]; [reflexivity|].
  apply Nat.ltb_lt in H. rewrite H. reflexivity.
Qed.

Lemma kneighbors_ok k n_a n_b :
  0 < k -> k <= length n_a -> n_b <> [] ->
  kneighbors k n_a n_b
  = Ok (map (fun q => firstn k (argsort (map (dist2 q) n_a))) n_b).
Proof.
  intros Hk H Hb. unfold kneighbors.
  destruct n_a as [|a n_a]; [simpl in H; lia|].
  destruct n_b as [|b n_b]; [contradiction|].
  apply Nat.ltb_ge in H. rewrite H. reflexivity.
Qed.

Lemma kneighbors_row k n_a q :
  k <= length n_a ->
  length (firstn k (argsort (map (dist2 q) n_a))) = k
  /\ nearest_first n_a q (firstn k (argsort (map (dist2 q) n_a))).
Proof.
  intros H. rewrite <- (length_map (dist2 q)) in H.
  destruct (firstn_argsort k (map (dist2 q) n_a) H) as (H1 & H2 & H3 & H4 & H5).
  rewrite length_map in H3, H5.
  split; [assumption|]. unfold nearest_first, dist_to. auto.
Qed.

(** C6, as the code has it.  With at least three lines in the no-successor
    pool and a non-empty no-predecessor pool, the search returns, for every
    no-predecessor line, exactly three positions (which is the minimum of 3
    and the size of the pool), nearest first and none farther than a
    position left out.  With fewer than three lines in the no-successor
    pool, or with an empty no-predecessor pool, it raises [ValueError]. *)
Theorem three_nearest_or_error ne nb :
  (3 <= length ne -> nb <> [] ->
     exists indices,
       calculate_neighbors ne nb = Ok indices
       /\ Forall2 (fun l row =>
                     length row = Nat.min 3 (length ne)
                     /\ nearest_first (map e_point ne) (b_point l) row)
                  nb indices)
  /\ (length ne < 3 -> calculate_neighbors ne nb = Raise ValueError)
  /\ (nb = [] -> calculate_neighbors ne nb = Raise ValueError).
Proof.
  unfold calculate_neighbors. split; [|split].
  - intros H3 Hnb. eexists. split.
    + apply kneighbors_ok; [lia|rewrite length_map; assumption|].
      destruct nb; [contradiction|discriminate].
    + clear Hnb. induction nb as [|l nb IH]; [constructor|].
      change (map b_point (l :: nb)) with (b_point l :: map b_point nb).
      rewrite map_cons. constructor; [|exact IH].
      destruct (kneighbors_row 3 (map e_point ne) (b_point l)) as [Hl Hn].
      { rewrite length_map. assumption. }
      split; [|exact Hn]. rewrite Hl. symmetry. apply Nat.min_l. assumption.
  - intros H. apply kneighbors_raise. rewrite length_map. assumption.
  - intros ->. simpl. unfold kneighbors. destruct (map e_point ne); reflexivity.
Qed.

Lemma three_nearest_or_error_witness :
  exists indices,
    calculate_neighbors ex_three ex_no_begin = Ok indices
    /\ Forall2 (fun l row =>
                  length row = Nat.min 3 (length ex_three)
                  /\ nearest_first (map e_point ex_three) (b_point l) row)
               ex_no_begin indices.
Proof.
  apply (proj1 (three_nearest_or_error ex_three ex_no_begin)).
  - simpl. lia.
  - discriminate.
Defined.

(** The three targets of [ex_three] end at (1,0), (1,9) and (2,-7); from
    the start point (2,0) the nearest is the first, then the third. *)
Lemma ex_three_neighbors :
  calculate_neighbors ex_three ex_no_begin = Ok [[0; 2; 1]].
Proof.
  unfold calculate_neighbors, kneighbors, argsort. Reval. reflexivity.
Qed.

(** C6 fails: with two lines in the no-successor pool the search does not
    return two results per line, it raises. *)
Lemma two_targets_no_result :
  ~ exists indices,
      calculate_neighbors ex_gap_pool ex_gap_pool = Ok indices
      /\ Forall (fun row => length row = Nat.min 3 (length ex_gap_pool)) indices.
Proof. intros (indices & H & _). discriminate H. Qed.

(** ** The column [first] and the synthesis *)

Lemma kneighbors_inv k n_a n_b indices :
  kneighbors k n_a n_b = Ok indices ->
  k <= length n_a
  /\ indices = map (fun q => firstn k (argsort (map (dist2 q) n_a))) n_b.
Proof.
  unfold kneighbors. destruct n_a as [|a n_a]; [discriminate|].
  destruct n_b as [|b n_b]; [discriminate|].
  destruct (Nat.ltb_spec (length (a :: n_a)) k); [discriminate|].
  intros [= <-]. auto.
Qed.

Lemma loc_In ne t : NoDup (ids ne) -> In t ne -> loc ne (idx t) = Ok t.
Proof.
  unfold loc. induction ne as [|l ne IH]; simpl; intros Hnd Hin; [contradiction|].
  inversion Hnd as [|? ? Hl Hnd']; subst.
  destruct Hin as [->|Hin].
  - rewrite Z.eqb_refl. reflexivity.
  - destruct (Z.eqb_spec (idx l) (idx t)) as [E|_]; [|auto].
    exfalso. apply Hl. rewrite E. apply in_map. assumption.
Qed.

Lemma dist_to_nth_error ne q i t :
  nth_error ne i = Some t -> dist_to (map e_point ne) q i = dist2 q (e_point t).
Proof.
  intros H. unfold dist_to. apply nth_error_nth.
  rewrite !nth_error_map, H. reflexivity.
Qed.

(** The first position of a row of [kneighbors] is a nearest sample. *)
Lemma rank0_nearest k n_a q i :
  k <= length n_a ->
  nth_error (firstn k (argsort (map (dist2 q) n_a))) 0 = Some i ->
  i < length n_a
  /\ forall j, j < length n_a -> (dist_to n_a q i <= dist_to n_a q j)%R.
Proof.
  intros Hk Hi.
  destruct (kneighbors_row k n_a q Hk) as (_ & Hnd & Hlt & Hs & Hout).
  destruct (firstn k (argsort (map (dist2 q) n_a))) as [|i0 row]; [discriminate|].
  injection Hi as ->.
  split; [apply Hlt; left; reflexivity|].
  intros j Hj. destruct (in_dec Nat.eq_dec j (i :: row)) as [[<-|Hin]|Hnin].
  - lra.
  - inversion Hs as [|? ? _ Hall]; subst. rewrite Forall_forall in Hall. auto.
  - apply Hout; [left; reflexivity|assumption|assumption].
Qed.

Lemma first_column_nearest ne nb firsts :
  first_column ne nb = Ok firsts ->
  Forall2 (fun l f => exists t, nearest_target ne l t /\ f = idx t) nb firsts.
Proof.
  unfold first_column, calculate_neighbors, convert_to_id. intros H.
  apply bind_ok in H as (indices & Hk & H). apply bind_ok in H as (col0 & Hc & H).
  apply kneighbors_inv in Hk as [Hlen ->].
  apply mapM_Forall2 in Hc. apply mapM_Forall2 in H.
  revert col0 firsts Hc H. induction nb as [|l nb IH]; simpl; intros col0 firsts Hc H.
  - inversion Hc; subst. inversion H; subst. constructor.
  - inversion Hc as [|row i0 rows col0' Hi0 Hc']; subst.
    inversion H as [|i0' f col0'' firsts' Hf H']; subst.
    constructor; [|eapply IH; eassumption].
    unfold getitem in Hi0, Hf.
    destruct (nth_error _ 0) as [i|] eqn:Ei in Hi0; [|discriminate].
    injection Hi0 as ->.
    destruct (nth_error (ids ne) i0) as [f'|] eqn:Ef; [|discriminate].
    injection Hf as ->.
    unfold ids in Ef. rewrite nth_error_map in Ef.
    destruct (nth_error ne i0) as [t|] eqn:Et; [|discriminate].
    injection Ef as <-.
    destruct (rank0_nearest _ _ _ _ Hlen Ei) as [_ Hmin].
    exists t. split; [|reflexivity]. split; [eapply nth_error_In; eassumption|].
    intros t' Hin'. destruct (In_nth_error _ _ Hin') as [j Hj].
    rewrite <- (dist_to_nth_error ne (b_point l) i0 t Et).
    rewrite <- (dist_to_nth_error ne (b_point l) j t' Hj).
    apply Hmin. rewrite length_map. apply nth_error_Some. congruence.
Qed.

Lemma synthesis_rows ne nb firsts :
  NoDup (ids ne) ->
  Forall2 (fun l f => exists t, nearest_target ne l t /\ f = idx t) nb firsts ->
  exists rows,
    mapM (fun r => e <- loc ne (snd r) ;;
                   Ok (mkArt (snd r) (idx (fst r)) [e_point e; b_point (fst r)]))
         (combine nb firsts) = Ok rows
    /\ Forall2 (connects ne) nb rows.
Proof.
  intros Hnd HF. induction HF as [|l f nb firsts (t & Ht & ->) HF (rows & Hr & IH)].
  - exists []. split; [reflexivity|constructor].
  - simpl. rewrite (loc_In ne t Hnd (proj1 Ht)); simpl. rewrite Hr; simpl.
    eexists. split; [reflexivity|]. constructor; [|exact IH].
    split; [reflexivity|]. exists t. simpl. auto.
Qed.

Lemma round_candidates ne nb firsts :
  NoDup (ids ne) -> first_column ne nb = Ok firsts ->
  exists with_first arts rows,
    set_first nb firsts = Ok with_first
    /\ generate_artificial_lines with_first ne = Ok arts
    /\ Permutation arts rows
    /\ Forall2 (connects ne) nb rows.
Proof.
  intros Hnd Hf. apply first_column_nearest in Hf.
  destruct (synthesis_rows ne nb firsts Hnd Hf) as (rows & Hr & HF).
  exists (combine nb firsts), (sort index_leb rows), rows.
  split; [|split; [|split]].
  - unfold set_first. rewrite (Forall2_length' _ _ _ Hf), Nat.eqb_refl. reflexivity.
  - unfold generate_artificial_lines. rewrite Hr. reflexivity.
  - apply sort_perm.
  - assumption.
Qed.

(** C5. When the search of a round has returned the column [first], the
    synthesis builds one candidate for each line of the no-predecessor pool
    and nothing else: the frame of candidates is a permutation of one row
    per line.  The row of a line has the line as destination, a target whose
    end point is nearest to the start point of the line (rank 0; the ranks 1
    and 2 are not read), and as geometry the two-point segment from the end
    point of the target to the start point of the line. *)
Theorem one_candidate_per_line ne nb firsts :
  NoDup (ids ne) -> first_column ne nb = Ok firsts ->
  exists with_first arts rows,
    set_first nb firsts = Ok with_first
    /\ generate_artificial_lines with_first ne = Ok arts
    /\ length arts = length nb
    /\ Permutation arts rows
    /\ Forall2 (connects ne) nb rows.
Proof.
  intros Hnd Hf.
  destruct (round_candidates ne nb firsts Hnd Hf) as (wf' & arts & rows & Hs & Hg & Hp & HF).
  exists wf', arts, rows. repeat split; try assumption.
  rewrite (Permutation_length Hp). symmetry. apply (Forall2_length' _ _ _ HF).
Qed.

Lemma ex_three_NoDup : NoDup (ids ex_three).
Proof.
  repeat constructor; simpl; intuition discriminate.
Qed.

Lemma ex_three_first : first_column ex_three ex_no_begin = Ok [1%Z].
Proof. unfold first_column. rewrite ex_three_neighbors. reflexivity. Qed.

Lemma one_candidate_per_line_witness :
  exists with_first arts rows,
    set_first ex_no_begin [1%Z] = Ok with_first
    /\ generate_artificial_lines with_first ex_three = Ok arts
    /\ length arts = length ex_no_begin
    /\ Permutation arts rows
    /\ Forall2 (connects ex_three) ex_no_begin rows.
Proof.
  apply (one_candidate_per_line ex_three ex_no_begin [1%Z]).
  - exact ex_three_NoDup.
  - exact ex_three_first.
Defined.

(** ** Lists without duplicates *)

Lemma mem_In x l : mem x l = true <-> In x l.
Proof.
  unfold mem. rewrite existsb_exists. split.
  - intros (y & Hy & E). apply Z.eqb_eq in E. subst. assumption.
  - intros H. exists x. split; [assumption|apply Z.eqb_refl].
Qed.

Lemma NoDup_map_filter {A B : Type} (f : A -> B) (p : A -> bool) l :
  NoDup (map f l) -> NoDup (map f (filter p l)).
Proof.
  induction l as [|a l IH]; simpl; intros H; [constructor|].
  inversion H as [|? ? Ha Hl]; subst. destruct (p a); [|auto].
  simpl. constructor; [|auto].
  intros Hin. apply Ha. apply in_map_iff in Hin as (x & E & Hx).
  apply filter_In in Hx as [Hx _]. apply in_map_iff. eauto.
Qed.

Lemma NoDup_map_inj {A B : Type} (f : A -> B) l x y :
  NoDup (map f l) -> In x l -> In y l -> f x = f y -> x = y.
Proof.
  induction l as [|a l IH]; simpl; intros H Hx Hy E; [contradiction|].
  inversion H as [|? ? Ha Hl]; subst.
  destruct Hx as [->|Hx], Hy as [->|Hy]; auto.
  - exfalso. apply Ha. rewrite E. apply in_map. assumption.
  - exfalso. apply Ha. rewrite <- E. apply in_map. assumption.
Qed.

Lemma NoDup_app_disjoint {A : Type} (l1 l2 : list A) :
  NoDup l1 -> NoDup l2 -> (forall x, In x l1 -> ~ In x l2) -> NoDup (l1 ++ l2).
Proof.
  induction l1 as [|a l1 IH]; simpl; intros H1 H2 Hd; [assumption|].
  inversion H1 as [|? ? Ha Hl]; subst. constructor.
  - intros Hin. apply in_app_or in Hin as [Hin|Hin]; [auto|].
    apply (Hd a); auto.
  - apply IH; auto.
Qed.

Lemma Forall2_impl_In {A B : Type} (P Q : A -> B -> Prop) l l' :
  Forall2 P l l' -> (forall a b, In a l -> In b l' -> P a b -> Q a b) ->
  Forall2 Q l l'.
Proof.
  induction 1 as [|a b l l' HP HF IH]; intros HQ; constructor.
  - apply HQ; simpl; auto.
  - apply IH. intros x y Hx Hy. apply HQ; simpl; auto.
Qed.

Lemma Forall2_map_eq {A B C : Type} (f : A -> C) (g : B -> C) l l' :
  Forall2 (fun a b => f a = g b) l l' -> map f l = map g l'.
Proof. induction 1; simpl; congruence. Qed.

(** ** [drop] *)

Lemma drop_inv df labels df' :
  drop df labels = Ok df' ->
  df' = filter (fun l => negb (mem (idx l) labels)) df /\ incl labels (ids df).
Proof.
  unfold drop. destruct (forallb _ labels) eqn:E; [|discriminate].
  intros [= <-]. split; [reflexivity|].
  rewrite forallb_forall in E. intros x Hx. apply mem_In. auto.
Qed.

Lemma drop_ok df labels :
  incl labels (ids df) ->
  drop df labels = Ok (filter (fun l => negb (mem (idx l) labels)) df).
Proof.
  intros H. unfold drop.
  replace (forallb _ labels) with true; [reflexivity|].
  symmetry. apply forallb_forall. intros x Hx. apply mem_In. auto.
Qed.

Lemma dropped_ids df labels x :
  In x (ids (filter (fun l => negb (mem (idx l) labels)) df))
  <-> In x (ids df) /\ ~ In x labels.
Proof.
  unfold ids. rewrite !in_map_iff. split.
  - intros (l & <- & Hl). apply filter_In in Hl as [Hl Hm].
    apply negb_true_iff in Hm. split; [eauto|].
    intros Hin. apply mem_In in Hin. congruence.
  - intros [(l & <- & Hl) Hn]. exists l. split; [reflexivity|].
    apply filter_In. split; [assumption|].
    apply negb_true_iff. destruct (mem (idx l) labels) eqn:E; [|reflexivity].
    apply mem_In in E. contradiction.
Qed.

Lemma dropped_length df labels :
  NoDup (ids df) -> NoDup labels -> incl labels (ids df) ->
  length (filter (fun l => negb (mem (idx l) labels)) df) + length labels
  = length df.
Proof.
  intros Hdf Hl Hincl.
  rewrite <- (filter_length (fun l => mem (idx l) labels) df).
  rewrite Nat.add_comm. f_equal.
  rewrite <- (length_map idx (filter _ df)).
  apply Permutation_length, NoDup_Permutation.
  - assumption.
  - apply NoDup_map_filter. exact Hdf.
  - intros x. rewrite in_map_iff. split.
    + intros Hx. destruct (proj1 (in_map_iff idx df x) (Hincl x Hx)) as (l & <- & Hin).
      exists l. split; [reflexivity|]. apply filter_In. split; [assumption|].
      apply mem_In. assumption.
    + intros (l & <- & Hin). apply filter_In in Hin as [_ Hm].
      apply mem_In. assumption.
Qed.

Lemma wf_pool_filter (p : line -> bool) df : wf_pool df -> wf_pool (filter p df).
Proof.
  intros [Hnd Hg]. split.
  - apply NoDup_map_filter. exact Hnd.
  - rewrite Forall_forall in *. intros l Hl. apply filter_In in Hl as [Hl _]. auto.
Qed.

(** ** One round *)

Lemma chosen_row nb ne arts key group row :
  In (key, group) (groupby arts) -> choose nb ne group = Ok row ->
  exists a, In a arts /\ e_idx a = key
            /\ c_e_idx row = key /\ c_b_idx row = b_idx a.
Proof.
  intros Hg Hc. destruct (choose_inv _ _ _ _ Hc) as [Hne [ds Hds]].
  destruct (choose_first_min nb ne group ds Hne Hds) as (k & a & d & Hc' & Hk & _).
  rewrite Hc in Hc'. injection Hc' as ->.
  apply nth_error_In in Hk. destruct (groupby_member _ _ _ _ Hg Hk) as [Ha He].
  exists a. simpl. auto.
Qed.

Lemma distinct_destinations (arts : list art_line) gs rows :
  Forall2 (fun (g : Z * list art_line) row =>
             exists a, In a arts /\ e_idx a = fst g
                       /\ c_e_idx row = fst g /\ c_b_idx row = b_idx a) gs rows ->
  NoDup (map fst gs) -> NoDup (map b_idx arts) ->
  NoDup (map c_b_idx rows).
Proof.
  intros HF Hk Hb. induction HF as [|g row gs rows (a & Ha & Hea & _ & Hba) HF IH];
    simpl; [constructor|].
  inversion Hk as [|? ? Hg Hk']; subst. constructor; [|auto].
  intros Hin. apply in_map_iff in Hin as (row' & E & Hrow').
  destruct (Forall2_In_r _ _ _ _ HF Hrow') as (g' & Hg' & a' & Ha' & Hea' & _ & Hba').
  assert (a' = a).
  { apply (NoDup_map_inj b_idx arts); auto. congruence. }
  subst a'. apply Hg. rewrite <- Hea, Hea'. apply in_map. assumption.
Qed.

Lemma connects_ids ne nb rows :
  Forall2 (connects ne) nb rows -> map b_idx rows = ids nb.
Proof.
  intros HF. unfold ids. symmetry.
  apply Forall2_map_eq. eapply Forall2_impl_In; [exact HF|].
  intros l a _ _ [H _]. symmetry. exact H.
Qed.

Lemma round_connectors_inv thr s filtered :
  wf_pool (lines_no_end s) ->
  round_connectors thr s = Ok filtered ->
  exists arts rows,
    Permutation arts rows
    /\ Forall2 (connects (lines_no_end s)) (lines_no_begin s) rows
    /\ calculate_cos (lines_no_begin s) arts (lines_no_end s) thr = Ok filtered.
Proof.
  intros [Hnd _] H. unfold round_connectors in H.
  apply bind_ok in H as (firsts & Hf & H).
  destruct (round_candidates _ _ _ Hnd Hf) as (wf' & arts & rows & Hs & Hg & Hp & HF).
  rewrite Hs in H; simpl in H. rewrite Hg in H; simpl in H.
  exists arts, rows. auto.
Qed.

(** The connectors of a round join lines of the two pools, and no two of
    them share a source or a destination. *)
Lemma round_facts thr s filtered :
  wf_pool (lines_no_end s) -> wf_pool (lines_no_begin s) ->
  round_connectors thr s = Ok filtered ->
  (forall c, In c filtered ->
     In (c_e_idx c) (ids (lines_no_end s))
     /\ In (c_b_idx c) (ids (lines_no_begin s)))
  /\ NoDup (map c_e_idx filtered)
  /\ NoDup (map c_b_idx filtered).
Proof.
  intros Hne Hnb H.
  destruct (round_connectors_inv _ _ _ Hne H) as (arts & rows & Hp & HF & Hc).
  apply calculate_cos_inv in Hc as (chosen & Hch & ->).
  assert (HQ : Forall2 (fun (g : Z * list art_line) row =>
                  exists a, In a arts /\ e_idx a = fst g
                            /\ c_e_idx row = fst g /\ c_b_idx row = b_idx a)
                (groupby arts) chosen).
  { eapply Forall2_impl_In; [exact Hch|].
    intros [key group] row Hg _ Hrow. simpl in *.
    eapply chosen_row; eassumption. }
  split; [|split].
  - intros c Hc. apply filter_In in Hc as [Hc _]. apply sort_In in Hc.
    destruct (Forall2_In_r _ _ _ _ HQ Hc) as (g & _ & a & Ha & Hea & Hce & Hcb).
    apply (Permutation_in _ Hp) in Ha.
    destruct (Forall2_In_r _ _ _ _ HF Ha) as (l & Hl & Hbl & t & [Ht _] & Het & _).
    rewrite Hcb, Hbl, Hce, <- Hea, Het. split; apply in_map; assumption.
  - apply NoDup_map_filter.
    eapply Permutation_NoDup;
      [apply Permutation_map, Permutation_sym, sort_perm|].
    replace (map c_e_idx chosen) with (map fst (groupby arts)).
    + rewrite groupby_fst. apply group_keys_NoDup.
    + apply Forall2_map_eq. eapply Forall2_impl_In; [exact HQ|].
      intros g row _ _ (a & _ & _ & E & _). symmetry. exact E.
  - apply NoDup_map_filter.
    eapply Permutation_NoDup;
      [apply Permutation_map, Permutation_sym, sort_perm|].
    apply (distinct_destinations arts (groupby arts)); [exact HQ| |].
    + rewrite groupby_fst. apply group_keys_NoDup.
    + eapply Permutation_NoDup; [apply Permutation_map, Permutation_sym, Hp|].
      rewrite (connects_ids _ _ _ HF). apply Hnb.
Qed.

Lemma last_two {A : Type} (l : list A) :
  2 <= length l -> exists pre p q, l = pre ++ [p; q].
Proof.
  intros H. exists (firstn (length l - 2) l).
  pose proof (length_skipn (length l - 2) l) as Hlen.
  pose proof (firstn_skipn (length l - 2) l) as E.
  destruct (skipn (length l - 2) l) as [|p [|q [|z r]]]; simpl in Hlen; try lia.
  exists p, q. symmetry. exact E.
Qed.

Lemma first_two {A : Type} (l : list A) :
  2 <= length l -> exists p q post, l = p :: q :: post.
Proof. destruct l as [|p [|q post]]; simpl; intros H; try lia. eauto. Qed.

Lemma connects_angles ne nb l a :
  wf_pool ne -> wf_pool nb -> In l nb -> connects ne l a ->
  exists dg dga, angles_of nb ne a dg dga.
Proof.
  intros [Hne Hge] [Hnb Hgb] Hl (Hb & t & [Ht _] & He & Hg).
  rewrite Forall_forall in Hge, Hgb.
  destruct (last_two _ (Hge t Ht)) as (pre & p1 & q1 & E1).
  destruct (first_two _ (Hgb l Hl)) as (p2 & q2 & post & E2).
  do 2 eexists. exists t, l, pre, p1, q1, p2, q2, post, (e_point t), (b_point l), [].
  rewrite He, Hb. repeat split; auto using loc_In.
Qed.

Lemma round_raise thr s :
  length (lines_no_end s) < 3 \/ lines_no_begin s = [] ->
  round_connectors thr s = Raise ValueError.
Proof.
  intros H. unfold round_connectors, first_column, calculate_neighbors.
  replace (kneighbors 3 _ _) with (@Raise (list (list nat)) ValueError);
    [reflexivity|].
  symmetry. destruct H as [H|H].
  - apply kneighbors_raise. rewrite length_map. assumption.
  - rewrite H. simpl. unfold kneighbors.
    destruct (map e_point (lines_no_end s)); reflexivity.
Qed.

Lemma first_column_total ne nb :
  3 <= length ne -> nb <> [] -> exists firsts, first_column ne nb = Ok firsts.
Proof.
  intros H3 Hnb. unfold first_column, calculate_neighbors.
  rewrite kneighbors_ok;
    [|lia|rewrite length_map; assumption
     |destruct nb; [contradiction|discriminate]].
  simpl.
  set (indices := map _ (map b_point nb)).
  assert (Hrow : forall row, In row indices ->
            length row = 3 /\ forall i, In i row -> i < length ne).
  { intros row Hin. unfold indices in Hin.
    apply in_map_iff in Hin as (q & <- & _).
    destruct (kneighbors_row 3 (map e_point ne) q) as (Hl & _ & Hlt & _).
    { rewrite length_map. assumption. }
    rewrite length_map in Hlt. auto. }
  destruct (mapM_total (fun row => getitem row 0) indices) as [col0 Hc].
  { intros row Hin. destruct (Hrow row Hin) as [Hl _].
    unfold getitem. destruct row; [discriminate|]. simpl. eauto. }
  rewrite Hc; simpl. unfold convert_to_id. apply mapM_total.
  intros i Hi. apply mapM_Forall2 in Hc.
  destruct (Forall2_In_r _ _ _ _ Hc Hi) as (row & Hin & Hg).
  destruct (Hrow row Hin) as [_ Hlt].
  unfold getitem in Hg. destruct (nth_error row 0) as [i'|] eqn:E; [|discriminate].
  injection Hg as ->. apply nth_error_In, Hlt in E.
  unfold getitem. destruct (nth_error (ids ne) i) eqn:E'; [eauto|].
  apply nth_error_None in E'. unfold ids in E'. rewrite length_map in E'. lia.
Qed.

Lemma round_total thr s :
  wf_pool (lines_no_end s) -> wf_pool (lines_no_begin s) ->
  3 <= length (lines_no_end s) -> lines_no_begin s <> [] ->
  exists filtered, round_connectors thr s = Ok filtered.
Proof.
  intros Hne Hnb H3 Hb.
  destruct (first_column_total _ _ H3 Hb) as [firsts Hf].
  destruct (round_candidates _ _ _ (proj1 Hne) Hf)
    as (wf' & arts & rows & Hs & Hg & Hp & HF).
  unfold round_connectors. rewrite Hf; simpl. rewrite Hs; simpl. rewrite Hg; simpl.
  unfold calculate_cos.
  destruct (mapM_total (fun g => choose (lines_no_begin s) (lines_no_end s) (snd g))
              (groupby arts)) as [chosen Hch].
  { intros [key group] Hin. simpl.
    destruct (choose_least (lines_no_begin s) (lines_no_end s) group)
      as (row & _ & Hrow & _); [eapply groupby_nonempty; eassumption| |eauto].
    intros a Ha. destruct (groupby_member _ _ _ _ Hin Ha) as [Ha' _].
    apply (Permutation_in _ Hp) in Ha'.
    destruct (Forall2_In_r _ _ _ _ HF Ha') as (l & Hl & Hc).
    eapply connects_angles; eassumption. }
  rewrite Hch; simpl. destruct chosen as [|c chosen]; [|eauto].
  exfalso. apply mapM_Forall2 in Hch. inversion Hch as [E|]; subst.
  destruct (lines_no_begin s) as [|l nb]; [contradiction|].
  inversion HF as [|? a ? rows' _ _]; subst.
  assert (Ha : In a arts).
  { apply (Permutation_in _ (Permutation_sym Hp)). left. reflexivity. }
  assert (Hk : In (e_idx a) (group_keys arts)).
  { apply group_keys_In, in_map. assumption. }
  unfold groupby in E. destruct (group_keys arts); [contradiction|discriminate].
Qed.

(** ** One turn of the loop *)

Lemma iteration_unfold thr s :
  iteration thr s =
  (filtered <- round_connectors thr s ;;
   no_begin' <- drop (lines_no_begin s) (map c_b_idx filtered) ;;
   no_end' <- drop (lines_no_end s) (map c_e_idx filtered) ;;
   if Z.ltb (Z.abs (Z.of_nat (previous_result_length s)
                    - Z.of_nat (length (result_lines s ++ filtered)))) 5
   then Ok (true, mkState no_end' no_begin' (result_lines s ++ filtered)
                          (previous_result_length s))
   else Ok (false, mkState no_end' no_begin' (result_lines s ++ filtered)
                           (length (result_lines s ++ filtered)))).
Proof.
  unfold iteration, round_connectors.
  destruct (first_column _ _); simpl; [|reflexivity].
  destruct (set_first _ _); simpl; [|reflexivity].
  destruct (generate_artificial_lines _ _); reflexivity.
Qed.

Lemma iteration_inv thr s b s' :
  iteration thr s = Ok (b, s') ->
  exists filtered,
    round_connectors thr s = Ok filtered
    /\ result_lines s' = result_lines s ++ filtered
    /\ drop (lines_no_begin s) (map c_b_idx filtered) = Ok (lines_no_begin s')
    /\ drop (lines_no_end s) (map c_e_idx filtered) = Ok (lines_no_end s')
    /\ b = Z.ltb (Z.abs (Z.of_nat (previous_result_length s)
                         - Z.of_nat (length (result_lines s')))) 5
    /\ previous_result_length s'
       = if b then previous_result_length s else length (result_lines s').
Proof.
  rewrite iteration_unfold. intros H.
  apply bind_ok in H as (filtered & Hr & H).
  apply bind_ok in H as (nb' & Hnb & H). apply bind_ok in H as (ne' & Hne & H).
  exists filtered.
  destruct (Z.ltb _ 5) eqn:E; injection H as <- <-; simpl; rewrite E; auto 10.
Qed.

Lemma iteration_raise thr s :
  length (lines_no_end s) < 3 \/ lines_no_begin s = [] ->
  iteration thr s = Raise ValueError.
Proof.
  intros H. rewrite iteration_unfold, (round_raise thr s H). reflexivity.
Qed.

Lemma iteration_total thr s :
  wf_pool (lines_no_end s) -> wf_pool (lines_no_begin s) ->
  3 <= length (lines_no_end s) -> lines_no_begin s <> [] ->
  exists b s', iteration thr s = Ok (b, s').
Proof.
  intros Hne Hnb H3 Hb.
  destruct (round_total thr s Hne Hnb H3 Hb) as [filtered Hr].
  destruct (round_facts thr s filtered Hne Hnb Hr) as (Hin & _ & _).
  rewrite iteration_unfold, Hr; simpl.
  rewrite drop_ok; simpl.
  2:{ intros x Hx. apply in_map_iff in Hx as (c & <- & Hc). apply Hin, Hc. }
  rewrite drop_ok; simpl.
  2:{ intros x Hx. apply in_map_iff in Hx as (c & <- & Hc). apply Hin, Hc. }
  destruct (Z.ltb _ 5); eauto.
Qed.

(** A turn keeps the pools well formed and takes out of each pool as many
    lines as it accepts connectors; it accepts at least 5 when the loop
    goes on. *)
Lemma iteration_shrinks thr s b s' filtered :
  wf_state s -> iteration thr s = Ok (b, s') ->
  result_lines s' = result_lines s ++ filtered ->
  wf_pool (lines_no_end s') /\ wf_pool (lines_no_begin s')
  /\ length (lines_no_end s') + length filtered = length (lines_no_end s)
  /\ length (lines_no_begin s') + length filtered = length (lines_no_begin s)
  /\ (b = false -> 5 <= length filtered /\ wf_state s').
Proof.
  intros (Hne & Hnb & Hprev) H Hres.
  destruct (iteration_inv _ _ _ _ H) as (filtered' & Hr & Hres' & Hdb & Hde & Hb & Hp).
  assert (filtered' = filtered).
  { rewrite Hres in Hres'. apply app_inv_head in Hres'. congruence. }
  subst filtered'.
  destruct (round_facts thr s filtered Hne Hnb Hr) as (Hin & Hce & Hcb).
  apply drop_inv in Hdb as [Eb Hib]. apply drop_inv in Hde as [Ee Hie].
  assert (Wne : wf_pool (lines_no_end s')) by (rewrite Ee; apply wf_pool_filter, Hne).
  assert (Wnb : wf_pool (lines_no_begin s')) by (rewrite Eb; apply wf_pool_filter, Hnb).
  split; [exact Wne|]. split; [exact Wnb|].
  split; [|split].
  - rewrite Ee, <- (length_map c_e_idx filtered).
    apply dropped_length; [apply Hne|assumption|assumption].
  - rewrite Eb, <- (length_map c_b_idx filtered).
    apply dropped_length; [apply Hnb|assumption|assumption].
  - intros ->. rewrite Hres, length_app, Hprev in Hb.
    symmetry in Hb. apply Z.ltb_ge in Hb.
    split; [lia|]. split; [exact Wne|]. split; [exact Wnb|]. exact Hp.
Qed.

Lemma loop_stops thr :
  forall fuel s,
    wf_state s -> length (lines_no_begin s) < 5 * fuel ->
    (exists s', loop fuel thr s = Done s') \/ loop fuel thr s = Raised ValueError.
Proof.
  induction fuel as [|fuel IH]; intros s Hwf Hlen; [lia|].
  simpl.
  destruct (le_lt_dec 3 (length (lines_no_end s))) as [H3|H3].
  2:{ rewrite iteration_raise by auto. auto. }
  destruct (lines_no_begin s) as [|l nb] eqn:Enb.
  { rewrite iteration_raise by auto. auto. }
  destruct (iteration_total thr s) as (b & s' & Hit);
    [apply Hwf|apply Hwf|assumption|rewrite Enb; discriminate|].
  rewrite Hit. destruct b; [eauto|].
  destruct (iteration_inv _ _ _ _ Hit) as (filtered & _ & Hres & _).
  destruct (iteration_shrinks thr s false s' filtered Hwf Hit Hres)
    as (_ & _ & _ & Hl & Hc).
  destruct (Hc eq_refl) as [H5 Hwf'].
  apply IH; [assumption|]. rewrite Enb in Hl. lia.
Qed.

(** ** Endpoint extraction *)

Lemma boundary_short cs : length cs < 2 -> boundary cs = [].
Proof. destruct cs as [|p [|q r]]; simpl; intros H; [reflexivity|reflexivity|lia]. Qed.

Lemma get_begin_boundary cs :
  get_begin (boundary cs) = Raise IndexError
  \/ exists p, get_begin (boundary cs) = Ok p.
Proof.
  unfold get_begin, getitem. destruct (nth_error (boundary cs) 0); eauto.
Qed.

Lemma get_begin_ok cs p : get_begin (boundary cs) = Ok p -> 2 <= length cs.
Proof.
  destruct cs as [|a [|b r]]; simpl; try discriminate. intros _. lia.
Qed.

Lemma get_lines_raise df f :
  In f df -> length (coords f) < 2 -> get_lines df = Raise IndexError.
Proof.
  intros Hin Hlen. unfold get_lines.
  rewrite (mapM_raise (fun f => get_begin (boundary (coords f))) df f IndexError);
    [reflexivity|assumption| |].
  - intros f' _. apply get_begin_boundary.
  - rewrite boundary_short by assumption. reflexivity.
Qed.

Lemma mapM_error {A B : Type} (f : A -> result B) (l : list A) (e e' : exception) :
  (forall a e0, f a = Raise e0 -> e0 = e) -> mapM f l = Raise e' -> e' = e.
Proof.
  intros Hf. induction l as [|a l IH]; simpl; [discriminate|].
  destruct (f a) as [b|e0] eqn:Ea; simpl.
  - destruct (mapM f l); simpl; [discriminate|]. intros [= <-]. auto.
  - intros [= <-]. eauto.
Qed.

Lemma get_lines_error df e : get_lines df = Raise e -> e = IndexError.
Proof.
  unfold get_lines. intros H.
  assert (Hg : forall (l : list point) i e0, getitem l i = Raise e0 -> e0 = IndexError).
  { intros l i e0. unfold getitem. destruct (nth_error l i); congruence. }
  destruct (mapM (fun f => get_begin (boundary (coords f))) df) as [bs|e1] eqn:Eb;
    simpl in H.
  - destruct (mapM (fun f => get_end (boundary (coords f))) df) as [es|e2] eqn:Ee;
      simpl in H; [discriminate|]. injection H as <-.
    eapply mapM_error; [|exact Ee]. intros f e0. apply Hg.
  - injection H as <-. eapply mapM_error; [|exact Eb]. intros f e0. apply Hg.
Qed.

Lemma add_points_rows df :
  forall bs es,
    Forall2 (fun f b => get_begin (boundary (coords f)) = Ok b) df bs ->
    length es = length df ->
    Forall2 (fun f l => idx l = fid f /\ 2 <= length (geometry l))
            df (add_points df bs es).
Proof.
  unfold add_points.
  induction df as [|f df IH]; intros bs es Hb He.
  - inversion Hb; subst. constructor.
  - inversion Hb as [|? b ? bs' Hfb Hb']; subst.
    destruct es as [|e es]; [discriminate|]. simpl.
    constructor; [|apply IH; [assumption|simpl in He; lia]].
    simpl. split; [reflexivity|]. eapply get_begin_ok; eassumption.
Qed.

Lemma get_lines_wf df ne nb :
  NoDup (map fid df) -> get_lines df = Ok (ne, nb) ->
  wf_state (initial ne nb) /\ length nb <= length df.
Proof.
  intros Hnd H. unfold get_lines in H.
  apply bind_ok in H as (bs & Hb & H). apply bind_ok in H as (es & He & H).
  injection H as <- <-.
  apply mapM_Forall2 in Hb. apply mapM_Forall2 in He.
  pose proof (add_points_rows df bs es Hb (eq_sym (Forall2_length' _ _ _ He))) as HF.
  assert (Hw : wf_pool (add_points df bs es)).
  { split.
    - replace (ids (add_points df bs es)) with (map fid df); [assumption|].
      unfold ids. apply Forall2_map_eq.
      eapply Forall2_impl_In; [exact HF|]. intros f l _ _ [E _]. symmetry. exact E.
    - rewrite Forall_forall. intros l Hl.
      destruct (Forall2_In_r _ _ _ _ HF Hl) as (f & _ & _ & Hg). exact Hg. }
  split.
  - split; [|split]; simpl; try reflexivity; apply wf_pool_filter, Hw.
  - rewrite (Forall2_length' _ _ _ HF). apply filter_length_le.
Qed.

(** C9. When a line of the input has fewer than two coordinates,
    [get_lines] raises, and so does [main] whatever the number of rounds it
    is allowed, none included: the error precedes the first round and no
    final state is returned. *)
Theorem short_geometry_aborts df f thr fuel :
  In f df -> length (coords f) < 2 ->
  get_lines df = Raise IndexError
  /\ main fuel df thr = Raised IndexError
  /\ main 0 df thr = Raised IndexError.
Proof.
  intros Hin Hlen. unfold main.
  rewrite (get_lines_raise df f Hin Hlen). auto.
Qed.

Lemma short_geometry_aborts_witness :
  get_lines [mkFeature 1 [(0, 0); (1, 0)]; mkFeature 2 [(3, 3)]]%R = Raise IndexError
  /\ main 7 [mkFeature 1 [(0, 0); (1, 0)]; mkFeature 2 [(3, 3)]]%R 5 = Raised IndexError
  /\ main 0 [mkFeature 1 [(0, 0); (1, 0)]; mkFeature 2 [(3, 3)]]%R 5 = Raised IndexError.
Proof.
  apply (short_geometry_aborts
           [mkFeature 1 [(0, 0); (1, 0)]; mkFeature 2 [(3, 3)]]%R
           (mkFeature 2 [(3, 3)%R]) 5%R 7).
  - right. left. reflexivity.
  - simpl. lia.
Defined.

(** ** The loop on the example frames *)

Lemma ex_gap_get_lines : get_lines ex_gap = Ok (ex_gap_pool, ex_gap_pool).
Proof. unfold get_lines, ex_gap. Reval. reflexivity. Qed.

Lemma ex_ring_get_lines : get_lines ex_ring = Ok ([], []).
Proof. unfold get_lines, ex_ring. Reval. reflexivity. Qed.

Lemma loop_S fuel thr s :
  loop (S fuel) thr s
  = match iteration thr s with
    | Raise e => Raised e
    | Ok (true, s') => Done s'
    | Ok (false, s') => loop fuel thr s'
    end.
Proof. reflexivity. Qed.

Lemma ex_gap_never_done : ~ exists fuel s', main fuel ex_gap 5 = Done s'.
Proof.
  intros (fuel & s' & H). unfold main in H. rewrite ex_gap_get_lines in H.
  destruct fuel as [|fuel]; [discriminate|].
  rewrite loop_S, iteration_raise in H; [discriminate|].
  left. simpl. lia.
Qed.

Lemma ex_ring_never_done : ~ exists fuel s', main fuel ex_ring 5 = Done s'.
Proof.
  intros (fuel & s' & H). unfold main in H. rewrite ex_ring_get_lines in H.
  destruct fuel as [|fuel]; [discriminate|].
  rewrite loop_S, iteration_raise in H; [discriminate|].
  left. simpl. lia.
Qed.

(** One round on [ex_three]: line 1 is joined to line 2, both leave their
    pools, and the loop stops since fewer than 5 connectors were added. *)
Lemma ex_three_iteration :
  iteration 5 (initial ex_three ex_no_begin)
  = Ok (true,
        mkState [mkLine 3 [(0, 9); (1, 9)] (0, 9) (1, 9);
                 mkLine 4 [(0, -7); (2, -7)] (0, -7) (2, -7)]%R
                []
                [mkConnector 1 2 0 0 [(1, 0); (2, 0)]%R]
                0).
Proof.
  unfold iteration, initial. simpl lines_no_end. simpl lines_no_begin.
  rewrite ex_three_first.
  unfold ex_three, ex_no_begin, calculate_cos.
  cbn -[AngleBtw2Points Rabs Rltb].
  rewrite (AngleBtw2Points_east (0, 0)%R (1, 0)%R) by (simpl; lra).
  rewrite (AngleBtw2Points_east (2, 0)%R (3, 0)%R) by (simpl; lra).
  rewrite (AngleBtw2Points_east (1, 0)%R (2, 0)%R) by (simpl; lra).
  rewrite Rminus_diag, Rabs_R0.
  unfold keep; simpl c_e_idx; simpl c_b_idx; simpl angle; simpl angle_art.
  replace (Rltb 0 5) with true by (symmetry; apply Rltb_true; lra).
  reflexivity.
Qed.

(** Two rounds on [ex_targets] and [ex_dests].  The first joins the five
    pairs and goes on; the second rejects the connector from target 6 to
    destination 16, which turns by 90 degrees, and stops. *)
Lemma ex_first_column :
  first_column ex_targets ex_dests = Ok [1; 2; 3; 4; 5; 6]%Z.
Proof.
  unfold first_column, calculate_neighbors, kneighbors, argsort, ex_targets, ex_dests.
  Reval. reflexivity.
Qed.

Lemma ex_first_round : iteration 5 (initial ex_targets ex_dests) = Ok (false, ex_rest).
Proof.
  unfold iteration, initial. simpl lines_no_end. simpl lines_no_begin.
  rewrite ex_first_column.
  unfold ex_targets, ex_dests, calculate_cos, keep.
  cbn -[AngleBtw2Points Rabs Rltb].
  Rangles. Rcompare.
  cbn -[AngleBtw2Points Rabs Rltb].
  reflexivity.
Qed.

Lemma ex_second_round : iteration 5 ex_rest = Ok (true, ex_rest).
Proof.
  unfold iteration, ex_rest, first_column, calculate_neighbors, kneighbors, argsort.
  simpl lines_no_end. simpl lines_no_begin.
  Reval.
  unfold calculate_cos, keep.
  cbn -[AngleBtw2Points Rabs Rltb].
  Rangles. Rcompare.
  cbn -[AngleBtw2Points Rabs Rltb].
  reflexivity.
Qed.

Lemma ex_run : loop 2 5 (initial ex_targets ex_dests) = Done ex_rest.
Proof. rewrite loop_S, ex_first_round, loop_S, ex_second_round. reflexivity. Qed.

Lemma ex_targets_wf : wf_state (initial ex_targets ex_dests).
Proof.
  split; [|split]; [split|split|reflexivity].
  - repeat constructor; simpl; intuition discriminate.
  - repeat constructor.
  - repeat constructor; simpl; intuition discriminate.
  - repeat constructor.
Qed.

(** When every line finds its partner, the first round joins the five
    pairs and goes on, and the second round starts on empty pools. *)
Lemma ex_pairs_first_round :
  iteration 5 (initial (firstn 5 ex_targets) (firstn 5 ex_dests))
  = Ok (false, mkState [] [] ex_connectors 5).
Proof.
  unfold iteration, initial, first_column, calculate_neighbors, kneighbors, argsort.
  simpl lines_no_end. simpl lines_no_begin.
  Reval.
  unfold calculate_cos, keep.
  cbn -[AngleBtw2Points Rabs Rltb].
  Rangles. Rcompare.
  cbn -[AngleBtw2Points Rabs Rltb].
  reflexivity.
Qed.

Lemma ex_pairs_run :
  loop 2 5 (initial (firstn 5 ex_targets) (firstn 5 ex_dests)) = Raised ValueError.
Proof. rewrite loop_S, ex_pairs_first_round. reflexivity. Qed.

(** C7, as the code has it.  With an empty no-successor pool at the head
    of a round the search raises [ValueError]: the round returns no
    connectors, not even an empty frame, and the loop ends with the error. *)
Theorem empty_target_pool_raises thr s :
  lines_no_end s = [] ->
  round_connectors thr s = Raise ValueError
  /\ iteration thr s = Raise ValueError
  /\ forall fuel, loop (S fuel) thr s = Raised ValueError.
Proof.
  intros H.
  assert (Hs : length (lines_no_end s) < 3 \/ lines_no_begin s = []).
  { left. rewrite H. simpl. lia. }
  split; [apply round_raise, Hs|]. split; [apply iteration_raise, Hs|].
  intros fuel. rewrite loop_S, iteration_raise by exact Hs. reflexivity.
Qed.

Lemma empty_target_pool_raises_witness :
  round_connectors 5 (initial [] ex_no_begin) = Raise ValueError
  /\ iteration 5 (initial [] ex_no_begin) = Raise ValueError
  /\ forall fuel, loop (S fuel) 5 (initial [] ex_no_begin) = Raised ValueError.
Proof.
  apply (empty_target_pool_raises 5 (initial [] ex_no_begin)). reflexivity.
Defined.

(** C7 fails: on the ring every end point is a start point, both pools are
    empty at the first round, and the run ends with an error, not in DONE.
    So does the run on five pairs once its first round has joined them
    all: the second round starts on empty pools and raises. *)
Lemma empty_pool_not_done :
  get_lines ex_ring = Ok ([], [])
  /\ main 1 ex_ring 5 = Raised ValueError
  /\ (~ exists fuel s', main fuel ex_ring 5 = Done s')
  /\ iteration 5 (initial (firstn 5 ex_targets) (firstn 5 ex_dests))
     = Ok (false, mkState [] [] ex_connectors 5)
  /\ loop 2 5 (initial (firstn 5 ex_targets) (firstn 5 ex_dests))
     = Raised ValueError.
Proof.
  split; [exact ex_ring_get_lines|].
  split; [unfold main; rewrite ex_ring_get_lines; reflexivity|].
  split; [exact ex_ring_never_done|].
  split; [exact ex_pairs_first_round|exact ex_pairs_run].
Qed.

(** C3, as the code has it.  A turn of the loop that returns has run the
    search, the synthesis and the filter on the current pools, appended the
    connectors of the round to [result_lines], dropped their destinations
    from [lines_no_begin] and their sources from [lines_no_end], and breaks
    exactly when [abs (previous_result_length - len result_lines) < 5];
    otherwise it stores the new length.  From a well-formed state, a turn
    that goes on has added at least 5 connectors and taken at least 5 lines
    out of each pool; a turn raises [ValueError] exactly when the
    no-successor pool has fewer than 3 lines or the no-predecessor pool is
    empty; and the loop stops within [fuel] turns as soon as
    [5 * fuel] exceeds the size of the no-predecessor pool, either in DONE
    or with that [ValueError].  So does [main] on an input with unique ids,
    unless [get_lines] has raised [IndexError] before the loop. *)
Theorem loop_rounds_and_stops thr :
  (forall s b s', iteration thr s = Ok (b, s') ->
     exists filtered,
       round_connectors thr s = Ok filtered
       /\ result_lines s' = result_lines s ++ filtered
       /\ drop (lines_no_begin s) (map c_b_idx filtered) = Ok (lines_no_begin s')
       /\ drop (lines_no_end s) (map c_e_idx filtered) = Ok (lines_no_end s')
       /\ b = Z.ltb (Z.abs (Z.of_nat (previous_result_length s)
                            - Z.of_nat (length (result_lines s')))) 5
       /\ previous_result_length s'
          = if b then previous_result_length s else length (result_lines s'))
  /\ (forall s s', wf_state s -> iteration thr s = Ok (false, s') ->
        wf_state s'
        /\ length (result_lines s) + 5 <= length (result_lines s')
        /\ length (lines_no_end s') + 5 <= length (lines_no_end s)
        /\ length (lines_no_begin s') + 5 <= length (lines_no_begin s))
  /\ (forall s, wf_state s ->
        (iteration thr s = Raise ValueError
         <-> length (lines_no_end s) < 3 \/ lines_no_begin s = []))
  /\ (forall fuel s, wf_state s -> length (lines_no_begin s) < 5 * fuel ->
        (exists s', loop fuel thr s = Done s')
        \/ loop fuel thr s = Raised ValueError)
  /\ (forall fuel df, NoDup (map fid df) -> length df < 5 * fuel ->
        (exists s', main fuel df thr = Done s')
        \/ main fuel df thr = Raised ValueError
        \/ main fuel df thr = Raised IndexError).
Proof.
  split; [|split; [|split; [|split]]].
  - intros s b s'. apply iteration_inv.
  - intros s s' Hwf Hit.
    destruct (iteration_inv _ _ _ _ Hit) as (filtered & _ & Hres & _).
    destruct (iteration_shrinks thr s false s' filtered Hwf Hit Hres)
      as (_ & _ & Hle & Hlb & Hc).
    destruct (Hc eq_refl) as [H5 Hwf'].
    rewrite Hres, length_app. repeat split; try apply Hwf'; lia.
  - intros s Hwf. split; [|apply iteration_raise].
    intros Hr.
    destruct (le_lt_dec 3 (length (lines_no_end s))) as [H3|H3]; [|auto].
    destruct (lines_no_begin s) as [|l nb] eqn:Enb; [auto|].
    destruct (iteration_total thr s) as (b & s' & Hit);
      [apply Hwf|apply Hwf|assumption|rewrite Enb; discriminate|].
    congruence.
  - apply loop_stops.
  - intros fuel df Hnd Hlen. unfold main.
    destruct (get_lines df) as [[ne nb]|e] eqn:Eg.
    + destruct (get_lines_wf df ne nb Hnd Eg) as [Hwf Hle].
      destruct (loop_stops thr fuel (initial ne nb) Hwf) as [H|H]; [simpl; lia| |]; auto.
    + right. right. f_equal. eapply get_lines_error. exact Eg.
Qed.

Lemma loop_rounds_and_stops_witness :
  (exists s', loop 2 5 (initial ex_targets ex_dests) = Done s')
  \/ loop 2 5 (initial ex_targets ex_dests) = Raised ValueError.
Proof.
  apply (proj1 (proj2 (proj2 (proj2 (loop_rounds_and_stops 5))))
           2 (initial ex_targets ex_dests)).
  - exact ex_targets_wf.
  - simpl. lia.
Defined.

(** C3 fails: the two lines of [ex_gap] are a well-formed input, and the
    run on them never reaches DONE; its first round raises. *)
Lemma well_formed_input_not_done :
  NoDup (map fid ex_gap)
  /\ Forall (fun f => 2 <= length (coords f)) ex_gap
  /\ main 1 ex_gap 5 = Raised ValueError
  /\ ~ exists fuel s', main fuel ex_gap 5 = Done s'.
Proof.
  split; [repeat constructor; simpl; intuition discriminate|].
  split; [repeat constructor|].
  split; [|exact ex_gap_never_done].
  unfold main. rewrite ex_gap_get_lines, loop_S, iteration_raise; [reflexivity|].
  left. simpl. lia.
Qed.

(** ** The invariant of the run *)

Lemma iteration_matched_once thr s b s' :
  wf_state s -> matched_once s -> iteration thr s = Ok (b, s') ->
  exists filtered,
    result_lines s' = result_lines s ++ filtered
    /\ (forall c, In c filtered ->
          In (c_e_idx c) (ids (lines_no_end s))
          /\ In (c_b_idx c) (ids (lines_no_begin s)))
    /\ matched_once s'
    /\ incl (ids (lines_no_end s')) (ids (lines_no_end s))
    /\ incl (ids (lines_no_begin s')) (ids (lines_no_begin s)).
Proof.
  intros Hwf (Me & Mb & Mout) Hit.
  destruct (iteration_inv _ _ _ _ Hit) as (filtered & Hr & Hres & Hdb & Hde & _).
  destruct Hwf as (Hne & Hnb & _).
  destruct (round_facts thr s filtered Hne Hnb Hr) as (Hin & Hce & Hcb).
  apply drop_inv in Hdb as [Eb _]. apply drop_inv in Hde as [Ee _].
  exists filtered. split; [assumption|]. split; [assumption|].
  split; [|split].
  - unfold matched_once. rewrite Hres, !map_app. split; [|split].
    + apply NoDup_app_disjoint; auto.
      intros x Hx Hx'. apply in_map_iff in Hx as (c & <- & Hc).
      apply in_map_iff in Hx' as (c' & E & Hc').
      apply (proj1 (Mout c Hc)). rewrite <- E. apply Hin, Hc'.
    + apply NoDup_app_disjoint; auto.
      intros x Hx Hx'. apply in_map_iff in Hx as (c & <- & Hc).
      apply in_map_iff in Hx' as (c' & E & Hc').
      apply (proj2 (Mout c Hc)). rewrite <- E. apply Hin, Hc'.
    + intros c Hc. rewrite Ee, Eb, !dropped_ids.
      apply in_app_or in Hc as [Hc|Hc].
      * destruct (Mout c Hc). tauto.
      * split; intros [_ Hn]; apply Hn; apply in_map; assumption.
  - rewrite Ee. intros x Hx. apply dropped_ids in Hx. tauto.
  - rewrite Eb. intros x Hx. apply dropped_ids in Hx. tauto.
Qed.

Lemma reaches_invariant thr s0 s :
  wf_state s0 -> matched_once s0 -> reaches thr s0 s ->
  wf_state s /\ matched_once s.
Proof.
  intros Hwf Hm Hr. induction Hr as [|s1 s2 Hr IH Hit]; [auto|].
  destruct IH as [Hwf1 Hm1].
  destruct (iteration_matched_once thr s1 false s2 Hwf1 Hm1 Hit)
    as (filtered & Hres & _ & Hm2 & _).
  destruct (iteration_shrinks thr s1 false s2 filtered Hwf1 Hit Hres)
    as (_ & _ & _ & _ & Hc).
  split; [apply Hc; reflexivity|assumption].
Qed.

Lemma reaches_trans thr s0 s1 s2 :
  reaches thr s0 s1 -> reaches thr s1 s2 -> reaches thr s0 s2.
Proof.
  intros H01 H12. induction H12 as [|s s' H IH Hit]; [assumption|].
  eapply reaches_next; eassumption.
Qed.

(** A run that ends in DONE went through the heads of its rounds. *)
Lemma loop_done_reaches thr :
  forall fuel s0 s',
    loop fuel thr s0 = Done s' ->
    exists s, reaches thr s0 s /\ iteration thr s = Ok (true, s').
Proof.
  induction fuel as [|fuel IH]; intros s0 s' H; [discriminate|].
  rewrite loop_S in H.
  destruct (iteration thr s0) as [[[|] s1]|e] eqn:Hit; try discriminate.
  - injection H as <-. exists s0. split; [apply reaches_here|assumption].
  - destruct (IH s1 s' H) as (s & Hr & Hs). exists s. split; [|assumption].
    apply (reaches_trans thr s0 s1 s); [|assumption].
    eapply reaches_next; [apply reaches_here|assumption].
Qed.

(** C4. The pools returned by [get_lines] on an input with unique ids are
    well formed, and the state in which [main] ends on such an input
    satisfies [matched_once].  In a run from well-formed pools and no
    connectors, at every round:
    each connector accepted in the round has its source id in the
    no-successor pool and its destination id in the no-predecessor pool of
    that round; after the round no id is the source of two accumulated
    connectors, none the destination of two, and no matched id is left in
    its pool; the pools only lose ids. *)
Theorem matched_at_most_once thr :
  (forall df ne nb, NoDup (map fid df) -> get_lines df = Ok (ne, nb) ->
     wf_state (initial ne nb))
  /\ (forall s0 s b s',
        wf_state s0 -> result_lines s0 = [] -> reaches thr s0 s ->
        iteration thr s = Ok (b, s') ->
        exists filtered,
          result_lines s' = result_lines s ++ filtered
          /\ (forall c, In c filtered ->
                In (c_e_idx c) (ids (lines_no_end s))
                /\ In (c_b_idx c) (ids (lines_no_begin s)))
          /\ matched_once s'
          /\ incl (ids (lines_no_end s')) (ids (lines_no_end s))
          /\ incl (ids (lines_no_begin s')) (ids (lines_no_begin s)))
  /\ (forall fuel df s', NoDup (map fid df) -> main fuel df thr = Done s' ->
        matched_once s').
Proof.
  assert (Hrun : forall s0 s b s',
            wf_state s0 -> result_lines s0 = [] -> reaches thr s0 s ->
            iteration thr s = Ok (b, s') ->
            exists filtered,
              result_lines s' = result_lines s ++ filtered
              /\ (forall c, In c filtered ->
                    In (c_e_idx c) (ids (lines_no_end s))
                    /\ In (c_b_idx c) (ids (lines_no_begin s)))
              /\ matched_once s'
              /\ incl (ids (lines_no_end s')) (ids (lines_no_end s))
              /\ incl (ids (lines_no_begin s')) (ids (lines_no_begin s))).
  { intros s0 s b s' Hwf Hres Hr Hit.
    assert (Hm : matched_once s0).
    { unfold matched_once. rewrite Hres. simpl.
      split; [constructor|]. split; [constructor|]. contradiction. }
    destruct (reaches_invariant thr s0 s Hwf Hm Hr) as [Hwf' Hm'].
    exact (iteration_matched_once thr s b s' Hwf' Hm' Hit). }
  split; [intros df ne nb Hnd Hg; apply (get_lines_wf df ne nb Hnd Hg)|].
  split; [exact Hrun|].
  intros fuel df s' Hnd Hmain. unfold main in Hmain.
  destruct (get_lines df) as [[ne nb]|e] eqn:Eg; [|discriminate].
  destruct (get_lines_wf df ne nb Hnd Eg) as [Hwf _].
  destruct (loop_done_reaches thr fuel _ _ Hmain) as (s & Hr & Hit).
  destruct (Hrun (initial ne nb) s true s' Hwf eq_refl Hr Hit) as (_ & _ & _ & Hm & _).
  exact Hm.
Qed.

Lemma matched_at_most_once_witness :
  exists filtered,
    result_lines ex_rest = result_lines ex_rest ++ filtered
    /\ (forall c, In c filtered ->
          In (c_e_idx c) (ids (lines_no_end ex_rest))
          /\ In (c_b_idx c) (ids (lines_no_begin ex_rest)))
    /\ matched_once ex_rest
    /\ incl (ids (lines_no_end ex_rest)) (ids (lines_no_end ex_rest))
    /\ incl (ids (lines_no_begin ex_rest)) (ids (lines_no_begin ex_rest)).
Proof.
  apply (proj1 (proj2 (matched_at_most_once 5)) (initial ex_targets ex_dests)
           ex_rest true ex_rest).
  - exact ex_targets_wf.
  - reflexivity.
  - apply (reaches_next 5 (initial ex_targets ex_dests)
             (initial ex_targets ex_dests) ex_rest).
    + apply reaches_here.
    + exact ex_first_round.
  - exact ex_second_round.
Defined.

(** * Further properties of [main.py] *)

(** ** The range of a bearing *)

Lemma atan_nonpos (x : R) : (x <= 0)%R -> (atan x <= 0)%R.
Proof.
  intros [H| ->].
  - left. rewrite <- atan_0. apply atan_increasing. assumption.
  - rewrite atan_0. lra.
Qed.

Lemma atan_pos (x : R) : (0 < x)%R -> (0 < atan x)%R.
Proof. intros H. rewrite <- atan_0. apply atan_increasing. assumption. Qed.

Lemma div_neg_nonneg (y x : R) : (x < 0)%R -> (0 <= y)%R -> (y / x <= 0)%R.
Proof.
  intros Hx Hy. unfold Rdiv. pose proof (Rinv_lt_0_compat x Hx). nra.
Qed.

Lemma div_neg_neg (y x : R) : (x < 0)%R -> (y < 0)%R -> (0 < y / x)%R.
Proof.
  intros Hx Hy. unfold Rdiv. pose proof (Rinv_lt_0_compat x Hx). nra.
Qed.

(** The quadrant of [atan2 y x] for a direction into the western half
    plane. *)
Lemma atan2_north_west (y x : R) :
  (x < 0)%R -> (0 <= y)%R -> (PI / 2 < atan2 y x <= PI)%R.
Proof.
  intros Hx Hy. unfold atan2.
  destruct (Rlt_dec 0 x); [lra|]. destruct (Rlt_dec x 0); [|lra].
  destruct (Rle_dec 0 y); [|lra].
  pose proof (atan_bound (y / x)). pose proof (atan_nonpos _ (div_neg_nonneg y x Hx Hy)).
  lra.
Qed.

Lemma atan2_south_west (y x : R) :
  (x < 0)%R -> (y < 0)%R -> (- PI < atan2 y x < - (PI / 2))%R.
Proof.
  intros Hx Hy. unfold atan2.
  destruct (Rlt_dec 0 x); [lra|]. destruct (Rlt_dec x 0); [|lra].
  destruct (Rle_dec 0 y); [lra|].
  pose proof (atan_bound (y / x)). pose proof (atan_pos _ (div_neg_neg y x Hx Hy)).
  lra.
Qed.

Lemma atan2_range (y x : R) : (- PI < atan2 y x <= PI)%R.
Proof.
  pose proof PI_RGT_0.
  destruct (Rlt_dec x 0) as [Hx|Hx].
  - destruct (Rle_dec 0 y) as [Hy|Hy].
    + pose proof (atan2_north_west y x Hx Hy). lra.
    + pose proof (atan2_south_west y x Hx). lra.
  - unfold atan2. destruct (Rlt_dec 0 x).
    + pose proof (atan_bound (y / x)). lra.
    + destruct (Rlt_dec x 0); [lra|].
      destruct (Rlt_dec 0 y); [lra|]. destruct (Rlt_dec y 0); lra.
Qed.

Lemma degrees_lt (a b : R) : (a < b)%R -> (degrees a < degrees b)%R.
Proof.
  intros H. unfold degrees. pose proof PI_RGT_0.
  apply Rmult_lt_compat_r; [|assumption].
  apply Rdiv_lt_0_compat; lra.
Qed.

Lemma degrees_le (a b : R) : (a <= b)%R -> (degrees a <= degrees b)%R.
Proof.
  intros [H| ->]; [left; apply degrees_lt; assumption|lra].
Qed.

Lemma degrees_PI : degrees PI = 180%R.
Proof. unfold degrees. pose proof PI_neq0. field. assumption. Qed.

Lemma AngleBtw2Points_range (a b : point) :
  (-180 < AngleBtw2Points a b <= 180)%R.
Proof.
  unfold AngleBtw2Points; cbv zeta.
  destruct (atan2_range (snd b - snd a) (fst b - fst a)) as [Hl Hu].
  apply degrees_lt in Hl. apply degrees_le in Hu.
  rewrite degrees_opp, degrees_PI in Hl. rewrite degrees_PI in Hu. lra.
Qed.



(** ** The threshold *)

Lemma Rabs_diff_range (x y : R) :
  (-180 < x <= 180)%R -> (-180 < y <= 180)%R -> (0 <= Rabs (x - y) < 360)%R.
Proof.
  intros Hx Hy. split; [apply Rabs_pos|].
  unfold Rabs. destruct (Rcase_abs (x - y)); lra.
Qed.

Lemma candidate_angles_range nb ne a dg dga :
  candidate_angles nb ne a = Ok (dg, dga) ->
  (0 <= dg < 360)%R /\ (0 <= dga < 360)%R.
Proof.
  intros H. apply candidate_angles_angles_of in H.
  destruct H as (t & d & pre & p1 & q1 & p2 & q2 & post & pa & qa & rest
                 & _ & _ & _ & _ & _ & -> & ->).
  rewrite <- !AngleBtw2Points_bearing.
  split; apply Rabs_diff_range; apply AngleBtw2Points_range.
Qed.


Lemma chosen_angles nb ne group row :
  choose nb ne group = Ok row ->
  exists a, In a group
    /\ candidate_angles nb ne a = Ok (angle row, angle_art row).
Proof.
  intros Hc. destruct (choose_inv _ _ _ _ Hc) as [Hne [ds Hds]].
  destruct (choose_first_min nb ne group ds Hne Hds) as (k & a & [dg dga] & Hc' & Hk & Ha & _).
  rewrite Hc in Hc'. injection Hc' as ->. simpl.
  exists a. split; [eapply nth_error_In; eassumption|assumption].
Qed.

Lemma filter_nil {A : Type} (p : A -> bool) l :
  (forall x, In x l -> p x = false) -> filter p l = [].
Proof.
  induction l as [|a l IH]; simpl; intros H; [reflexivity|].
  rewrite (H a (or_introl eq_refl)). apply IH. auto.
Qed.

Lemma calculate_cos_range nb arts ne thr out c :
  calculate_cos nb arts ne thr = Ok out -> In c out ->
  (0 <= angle c < 360)%R /\ (0 <= angle_art c < 360)%R /\ (0 < thr)%R.
Proof.
  intros H Hc. apply calculate_cos_inv in H as (rows & HF & ->).
  apply filter_In in Hc as [Hc Hk]. apply sort_In in Hc.
  destruct (Forall2_In_r _ _ _ _ HF Hc) as (g & _ & Hch).
  destruct (chosen_angles _ _ _ _ Hch) as (a & _ & Ha).
  destruct (candidate_angles_range _ _ _ _ _ Ha) as [H1 H2].
  apply keep_accepted in Hk. destruct Hk as (Hk & _ & _).
  repeat split; try apply H1; try apply H2; lra.
Qed.

Lemma nonpositive_threshold_empty nb arts ne thr out :
  (thr <= 0)%R -> calculate_cos nb arts ne thr = Ok out -> out = [].
Proof.
  intros Hthr H. destruct out as [|c out]; [reflexivity|].
  destruct (calculate_cos_range _ _ _ _ _ c H (or_introl eq_refl)) as (_ & _ & Hpos).
  lra.
Qed.


(** X10. Raising the threshold keeps every row that [calculate_cos]
    returned, and whether [calculate_cos] raises does not depend on the
    threshold. *)
Theorem threshold_monotone nb arts ne thr1 thr2 :
  (thr1 <= thr2)%R ->
  (forall out1, calculate_cos nb arts ne thr1 = Ok out1 ->
     exists out2, calculate_cos nb arts ne thr2 = Ok out2 /\ incl out1 out2)
  /\ (forall e, calculate_cos nb arts ne thr1 = Raise e ->
        calculate_cos nb arts ne thr2 = Raise e).
Proof.
  intros Hle. unfold calculate_cos.
  destruct (mapM _ (groupby arts)) as [rows|e0]; simpl.
  - destruct rows as [|r rows]; [split; [discriminate|auto]|].
    split; [|discriminate].
    intros out1 [= <-]. eexists. split; [reflexivity|].
    intros c Hc. apply filter_In in Hc as [Hc Hk]. apply filter_In.
    split; [assumption|]. apply keep_accepted in Hk. apply keep_accepted.
    destruct Hk as (H1 & H2 & H3). repeat split; auto; lra.
  - split; [discriminate|auto].
Qed.

(** ** The frame returned by [calculate_cos] *)

Lemma connector_leb_total (a b : connector) :
  connector_leb a b = true \/ connector_leb b a = true.
Proof.
  unfold connector_leb.
  destruct (Z.ltb_spec (c_e_idx a) (c_e_idx b)), (Z.ltb_spec (c_e_idx b) (c_e_idx a)),
    (Z.eqb_spec (c_e_idx a) (c_e_idx b)), (Z.eqb_spec (c_e_idx b) (c_e_idx a)),
    (Z.leb_spec (c_b_idx a) (c_b_idx b)), (Z.leb_spec (c_b_idx b) (c_b_idx a));
    simpl; auto; lia.
Qed.

Lemma connector_leb_trans (a b c : connector) :
  connector_leb a b = true -> connector_leb b c = true -> connector_leb a c = true.
Proof.
  unfold connector_leb.
  destruct (Z.ltb_spec (c_e_idx a) (c_e_idx b)), (Z.ltb_spec (c_e_idx b) (c_e_idx c)),
    (Z.ltb_spec (c_e_idx a) (c_e_idx c)),
    (Z.eqb_spec (c_e_idx a) (c_e_idx b)), (Z.eqb_spec (c_e_idx b) (c_e_idx c)),
    (Z.eqb_spec (c_e_idx a) (c_e_idx c)),
    (Z.leb_spec (c_b_idx a) (c_b_idx b)), (Z.leb_spec (c_b_idx b) (c_b_idx c)),
    (Z.leb_spec (c_b_idx a) (c_b_idx c));
    simpl; auto; lia.
Qed.

Lemma chosen_sources nb ne arts rows :
  Forall2 (fun g row => choose nb ne (snd g) = Ok row) (groupby arts) rows ->
  map c_e_idx rows = group_keys arts.
Proof.
  intros HF. rewrite <- groupby_fst. symmetry. apply Forall2_map_eq.
  eapply Forall2_impl_In; [exact HF|].
  intros [key group] row Hg _ Hc. simpl in *.
  destruct (chosen_row _ _ _ _ _ _ Hg Hc) as (a & _ & _ & E & _). symmetry. exact E.
Qed.

Lemma strictly_sorted_sources l :
  StronglySorted (fun a b => connector_leb a b = true) l ->
  NoDup (map c_e_idx l) ->
  StronglySorted (fun a b => (c_e_idx a < c_e_idx b)%Z) l.
Proof.
  induction 1 as [|a l Hs IH Ha]; simpl; intros Hnd; constructor.
  - apply IH. inversion Hnd; assumption.
  - inversion Hnd as [|? ? Hn _]; subst.
    rewrite Forall_forall in *. intros b Hb. specialize (Ha b Hb).
    assert (c_e_idx a <> c_e_idx b).
    { intros E. apply Hn. rewrite E. apply in_map. assumption. }
    unfold connector_leb in Ha.
    destruct (Z.ltb_spec (c_e_idx a) (c_e_idx b)); [assumption|].
    destruct (Z.eqb_spec (c_e_idx a) (c_e_idx b)); [contradiction|discriminate].
Qed.

Lemma group_keys_length arts : length (group_keys arts) <= length arts.
Proof.
  unfold group_keys. rewrite (Permutation_length (sort_perm _ _)).
  rewrite <- (length_map e_idx arts).
  apply NoDup_incl_length; [apply NoDup_nodup|].
  intros x Hx. apply nodup_In in Hx. assumption.
Qed.

(** X11. The frame returned by [calculate_cos] is sorted by strictly
    increasing source id, so it has at most one row per source; its sources
    are sources of candidates, and it has no more rows than there are
    candidates. *)
Theorem calculate_cos_sorted nb arts ne thr out :
  calculate_cos nb arts ne thr = Ok out ->
  StronglySorted (fun a b => (c_e_idx a < c_e_idx b)%Z) out
  /\ incl (map c_e_idx out) (map e_idx arts)
  /\ length out <= length arts.
Proof.
  intros H. apply calculate_cos_inv in H as (rows & HF & ->).
  pose proof (chosen_sources _ _ _ _ HF) as Hk.
  assert (Hnd : NoDup (map c_e_idx (sort connector_leb rows))).
  { eapply Permutation_NoDup;
      [apply Permutation_map, Permutation_sym, sort_perm|].
    rewrite Hk. apply group_keys_NoDup. }
  split; [|split].
  - apply strictly_sorted_sources.
    + apply StronglySorted_filter.
      apply sort_sorted; [exact connector_leb_total|exact connector_leb_trans].
    + apply NoDup_map_filter. exact Hnd.
  - intros x Hx. apply in_map_iff in Hx as (c & <- & Hc).
    apply filter_In in Hc as [Hc _]. apply sort_In in Hc.
    apply group_keys_In. rewrite <- Hk. apply in_map. assumption.
  - eapply Nat.le_trans; [apply filter_length_le|].
    rewrite (Permutation_length (sort_perm _ _)).
    rewrite <- (length_map c_e_idx rows), Hk. apply group_keys_length.
Qed.

Lemma loc_member df label l : loc df label = Ok l -> In label (ids df).
Proof.
  unfold loc. destruct (find _ df) as [l'|] eqn:E; [|discriminate].
  intros _. apply find_some in E as [Hin E]. apply Z.eqb_eq in E.
  rewrite <- E. apply in_map. assumption.
Qed.

(** X12. [calculate_cos] raises [KeyError] on an empty frame of candidates,
    and it raises when a candidate has a source id that is not in
    [lines_no_end] or a destination id that is not in [lines_no_begin]. *)
Theorem calculate_cos_raises nb ne thr :
  calculate_cos nb [] ne thr = Raise KeyError
  /\ forall arts a,
       In a arts ->
       ~ In (e_idx a) (ids ne) \/ ~ In (b_idx a) (ids nb) ->
       exists e, calculate_cos nb arts ne thr = Raise e.
Proof.
  split; [reflexivity|].
  intros arts a Ha Hmiss.
  destruct (calculate_cos nb arts ne thr) as [out|e] eqn:E; [|eauto].
  exfalso. apply calculate_cos_inv in E as (rows & HF & _).
  assert (Hg : In (e_idx a, filter (fun a' => Z.eqb (e_idx a') (e_idx a)) arts)
                  (groupby arts)).
  { unfold groupby. apply in_map_iff. exists (e_idx a). split; [reflexivity|].
    apply group_keys_In, in_map. assumption. }
  destruct (Forall2_In_l _ _ _ _ HF Hg) as (row & _ & Hc). simpl in Hc.
  destruct (choose_angles _ _ _ _ Hc a) as (dg & dga & Hang).
  { apply filter_In. split; [assumption|apply Z.eqb_refl]. }
  destruct Hang as (t & d & pre & p1 & q1 & p2 & q2 & post & pa & qa & rest
                    & Ht & Hd & _).
  apply loc_member in Ht, Hd. tauto.
Qed.

(** ** The pools of [get_lines] *)

Lemma point_eqb_false (p q : point) : point_eqb p q = false <-> p <> q.
Proof.
  split.
  - intros H E. apply point_eqb_true in E. congruence.
  - intros H. destruct (point_eqb p q) eqn:E; [|reflexivity].
    apply point_eqb_true in E. contradiction.
Qed.

Lemma mapM_raise_inv {A B : Type} (f : A -> result B) (l : list A) (e : exception) :
  mapM f l = Raise e -> exists a, In a l /\ f a = Raise e.
Proof.
  induction l as [|a l IH]; simpl; [discriminate|].
  destruct (f a) as [b|e0] eqn:Ea; simpl.
  - destruct (mapM f l) as [bs|e1]; simpl; [discriminate|].
    intros [= <-]. destruct (IH eq_refl) as (a' & Ha' & Hr). eauto.
  - intros [= <-]. eauto.
Qed.


Lemma boundary_ends cs b e :
  get_begin (boundary cs) = Ok b -> get_end (boundary cs) = Ok e ->
  hd_error cs = Some b /\ e = last cs b /\ b <> e /\ 2 <= length cs.
Proof.
  destruct cs as [|p [|q r]]; try discriminate.
  change (boundary (p :: q :: r))
    with (if point_eqb p (last (p :: q :: r) p) then [] else [p; last (p :: q :: r) p]).
  destruct (point_eqb p (last (p :: q :: r) p)) eqn:E; [discriminate|].
  apply point_eqb_false in E.
  unfold get_begin, get_end, getitem. cbn [nth_error].
  intros [= <-] [= <-]. repeat split; auto. simpl. lia.
Qed.



Lemma isin_false p col : isin p col = false <-> forall q, In q col -> p <> q.
Proof.
  unfold isin. split.
  - intros H q Hq E. subst q.
    assert (existsb (point_eqb p) col = true); [|congruence].
    apply existsb_exists. exists p. split; [assumption|apply point_eqb_true; reflexivity].
  - intros H. destruct (existsb (point_eqb p) col) eqn:E; [|reflexivity].
    apply existsb_exists in E as (q & Hq & E). apply point_eqb_true in E.
    exfalso. apply (H q Hq E).
Qed.

Lemma add_points_row_of df :
  forall bs es,
    Forall2 (fun f b => get_begin (boundary (coords f)) = Ok b) df bs ->
    Forall2 (fun f e => get_end (boundary (coords f)) = Ok e) df es ->
    Forall2 row_of df (add_points df bs es)
    /\ map b_point (add_points df bs es) = bs
    /\ map e_point (add_points df bs es) = es
    /\ Forall (fun l => b_point l <> e_point l) (add_points df bs es).
Proof.
  unfold add_points.
  induction df as [|f df IH]; intros bs es Hb He.
  - inversion Hb; subst. inversion He; subst. simpl. repeat split; constructor.
  - inversion Hb as [|? b ? bs' Hfb Hb']; subst.
    inversion He as [|? e ? es' Hfe He']; subst.
    destruct (IH bs' es' Hb' He') as (H1 & H2 & H3 & H4).
    destruct (boundary_ends _ _ _ Hfb Hfe) as (Hh & Hl & Hne & _).
    simpl. repeat split.
    + constructor; [|exact H1]. unfold row_of. simpl. auto.
    + f_equal. exact H2.
    + f_equal. exact H3.
    + constructor; [simpl; assumption|exact H4].
Qed.

Lemma get_lines_rows df ne nb :
  get_lines df = Ok (ne, nb) ->
  exists rows,
    Forall2 row_of df rows
    /\ Forall (fun l => b_point l <> e_point l) rows
    /\ ne = filter (fun l => negb (isin (e_point l) (map b_point rows))) rows
    /\ nb = filter (fun l => negb (isin (b_point l) (map e_point rows))) rows.
Proof.
  unfold get_lines. intros H.
  apply bind_ok in H as (bs & Hb & H). apply bind_ok in H as (es & He & H).
  injection H as <- <-.
  apply mapM_Forall2 in Hb. apply mapM_Forall2 in He.
  destruct (add_points_row_of df bs es Hb He) as (H1 & H2 & H3 & H4).
  exists (add_points df bs es). rewrite H2, H3. auto.
Qed.


Lemma last_default {A : Type} (l : list A) (d d' : A) :
  l <> [] -> last l d = last l d'.
Proof.
  induction l as [|a [|b l] IH]; intros H; [contradiction|reflexivity|].
  change (last (b :: l) d = last (b :: l) d'). apply IH. discriminate.
Qed.

Lemma filter_length_lt {A : Type} (p : A -> bool) l x :
  In x l -> p x = false -> length (filter p l) < length l.
Proof.
  induction l as [|a l IH]; simpl; intros Hin Hp; [contradiction|].
  destruct Hin as [->|Hin].
  - rewrite Hp. pose proof (filter_length_le p l). lia.
  - specialize (IH Hin Hp). destruct (p a); simpl; lia.
Qed.

(** X4. Neither pool has more rows than the frame, and both have fewer
    when the last coordinate of some line is the first coordinate of some
    line. *)
Theorem pools_smaller_than_frame df ne nb :
  get_lines df = Ok (ne, nb) ->
  length ne <= length df /\ length nb <= length df
  /\ ((exists f f' p, In f df /\ In f' df
                      /\ hd_error (coords f') = Some p /\ last (coords f) p = p) ->
      length ne < length df /\ length nb < length df).
Proof.
  intros H. destruct (get_lines_rows df ne nb H) as (rows & HF & _ & -> & ->).
  rewrite (Forall2_length' _ _ _ HF).
  split; [apply filter_length_le|]. split; [apply filter_length_le|].
  intros (f & f' & p & Hf & Hf' & Hp & Hlast).
  destruct (Forall2_In_l _ _ _ _ HF Hf) as (l & Hl & _ & _ & Hhd & He).
  destruct (Forall2_In_l _ _ _ _ HF Hf') as (l' & Hl' & _ & _ & Hhd' & _).
  assert (E : e_point l = b_point l').
  { rewrite He. rewrite Hp in Hhd'. injection Hhd' as <-.
    rewrite (last_default (coords f) (b_point l) p); [assumption|].
    destruct (coords f); discriminate. }
  split.
  - apply (filter_length_lt _ rows l Hl). apply negb_false_iff.
    apply existsb_exists. exists (b_point l'). split; [apply in_map; assumption|].
    apply point_eqb_true. assumption.
  - apply (filter_length_lt _ rows l' Hl'). apply negb_false_iff.
    apply existsb_exists. exists (e_point l). split; [apply in_map; assumption|].
    apply point_eqb_true. symmetry. assumption.
Qed.

Lemma reaches_pools thr s0 s :
  reaches thr s0 s ->
  incl (lines_no_end s) (lines_no_end s0)
  /\ incl (lines_no_begin s) (lines_no_begin s0).
Proof.
  induction 1 as [|s1 s2 Hr [IHe IHb] Hit]; [split; apply incl_refl|].
  destruct (iteration_inv _ _ _ _ Hit) as (filtered & _ & _ & Hdb & Hde & _).
  apply drop_inv in Hdb as [Eb _]. apply drop_inv in Hde as [Ee _].
  split; intros l Hl.
  - rewrite Ee in Hl. apply filter_In in Hl as [Hl _]. auto.
  - rewrite Eb in Hl. apply filter_In in Hl as [Hl _]. auto.
Qed.

Lemma generate_artificial_lines_rows with_first ne arts :
  generate_artificial_lines with_first ne = Ok arts ->
  exists rows,
    Permutation arts rows
    /\ Forall2 (fun r a =>
                  exists t, In t ne /\ idx t = snd r
                    /\ a = mkArt (snd r) (idx (fst r)) [e_point t; b_point (fst r)])
               with_first rows.
Proof.
  unfold generate_artificial_lines. intros H.
  apply bind_ok in H as (rows & Hr & H). injection H as <-.
  exists rows. split; [apply sort_perm|].
  apply mapM_Forall2 in Hr. eapply Forall2_impl_In; [exact Hr|].
  intros r a _ _ Ha. apply bind_ok in Ha as (t & Ht & Ha). injection Ha as <-.
  unfold loc in Ht. destruct (find _ ne) as [t'|] eqn:E; [|discriminate].
  injection Ht as ->. apply find_some in E as [Hin E]. apply Z.eqb_eq in E.
  exists t. auto.
Qed.

(** X5. In every round of a run that starts from the pools of [get_lines],
    the end point of a line of [lines_no_end] differs from the start point
    of every line of [lines_no_begin]; so every candidate built by
    [generate_artificial_lines] in the run joins two different points. *)
Theorem connectors_have_length thr df ne nb s :
  get_lines df = Ok (ne, nb) -> reaches thr (initial ne nb) s ->
  (forall t d, In t (lines_no_end s) -> In d (lines_no_begin s) ->
     e_point t <> b_point d)
  /\ (forall column with_first arts a,
        set_first (lines_no_begin s) column = Ok with_first ->
        generate_artificial_lines with_first (lines_no_end s) = Ok arts ->
        In a arts ->
        exists p q, art_geometry a = [p; q] /\ p <> q).
Proof.
  intros Hg Hr.
  assert (Hpools : forall t d, In t (lines_no_end s) -> In d (lines_no_begin s) ->
            e_point t <> b_point d).
  { destruct (get_lines_rows df ne nb Hg) as (rows & _ & _ & Ene & Enb).
    destruct (reaches_pools thr _ _ Hr) as [He Hb]. simpl in He, Hb.
    intros t d Ht Hd. apply He in Ht. apply Hb in Hd.
    rewrite Ene in Ht. rewrite Enb in Hd.
    apply filter_In in Ht as [_ Ht]. apply filter_In in Hd as [Hd _].
    apply negb_true_iff in Ht. apply (proj1 (isin_false _ _) Ht).
    apply in_map. assumption. }
  split; [exact Hpools|].
  intros column with_first arts a Hs Hgen Ha.
  destruct (generate_artificial_lines_rows _ _ _ Hgen) as (rows & Hp & HF).
  apply (Permutation_in _ Hp) in Ha.
  destruct (Forall2_In_r _ _ _ _ HF Ha) as ([l f] & Hin & t & Ht & _ & ->).
  simpl. exists (e_point t), (b_point l). repeat split.
  apply Hpools; [assumption|].
  unfold set_first in Hs. destruct (length _ =? length _); [|discriminate].
  injection Hs as <-. apply in_combine_l in Hin. assumption.
Qed.

(** ** Synthesis and positions *)

Lemma loc_raise df label :
  (loc df label = Raise KeyError <-> ~ In label (ids df))
  /\ (forall e, loc df label = Raise e -> e = KeyError).
Proof.
  unfold loc. destruct (find _ df) as [l|] eqn:E.
  - split; [|discriminate]. split; [discriminate|].
    intros H. exfalso. apply H. apply find_some in E as [Hin E].
    apply Z.eqb_eq in E. rewrite <- E. apply in_map. assumption.
  - split; [|intros e [= <-]; reflexivity]. split; [|reflexivity].
    intros _ Hin. apply in_map_iff in Hin as (l & El & Hl).
    pose proof (find_none _ _ E l Hl) as Hn. simpl in Hn.
    apply Z.eqb_neq in Hn. contradiction.
Qed.

(** X13. When [generate_artificial_lines] returns, the frame has one row
    per line of [lines_no_begin]: its destinations are the ids of these
    lines and its sources their column [first], each up to order; every
    source is an id of [lines_no_end], and the frame is sorted by
    (source, destination).  It raises [KeyError], and nothing else, exactly
    when some value of the column [first] is no id of [lines_no_end]. *)
Theorem generate_artificial_lines_frame with_first ne :
  (forall arts, generate_artificial_lines with_first ne = Ok arts ->
     length arts = length with_first
     /\ Permutation (map b_idx arts) (map (fun r => idx (fst r)) with_first)
     /\ Permutation (map e_idx arts) (map snd with_first)
     /\ (forall a, In a arts -> In (e_idx a) (ids ne))
     /\ StronglySorted (fun a b => index_leb a b = true) arts)
  /\ (generate_artificial_lines with_first ne = Raise KeyError
      <-> exists r, In r with_first /\ ~ In (snd r) (ids ne))
  /\ (forall e, generate_artificial_lines with_first ne = Raise e -> e = KeyError).
Proof.
  split; [|split].
  - intros arts H.
    pose proof (generate_artificial_lines_sorted _ _ _ H) as Hs.
    destruct (generate_artificial_lines_rows _ _ _ H) as (rows & Hp & HF).
    split; [|split; [|split; [|split]]].
    + rewrite (Permutation_length Hp). symmetry. apply (Forall2_length' _ _ _ HF).
    + rewrite (Permutation_map b_idx Hp).
      replace (map b_idx rows) with (map (fun r : line * Z => idx (fst r)) with_first);
        [reflexivity|].
      apply Forall2_map_eq. eapply Forall2_impl_In; [exact HF|].
      intros r a _ _ (t & _ & _ & ->). reflexivity.
    + rewrite (Permutation_map e_idx Hp).
      replace (map e_idx rows) with (map (@snd line Z) with_first); [reflexivity|].
      apply Forall2_map_eq. eapply Forall2_impl_In; [exact HF|].
      intros r a _ _ (t & _ & _ & ->). reflexivity.
    + intros a Ha. apply (Permutation_in _ Hp) in Ha.
      destruct (Forall2_In_r _ _ _ _ HF Ha) as (r & _ & t & Ht & Hi & ->).
      simpl. rewrite <- Hi. apply in_map. assumption.
    + assumption.
  - unfold generate_artificial_lines. split.
    + intros H.
      destruct (mapM _ with_first) as [rows|e] eqn:E; simpl in H; [discriminate|].
      injection H as ->. apply mapM_raise_inv in E as (r & Hr & E).
      exists r. split; [assumption|].
      destruct (loc ne (snd r)) as [t|e] eqn:El; simpl in E; [discriminate|].
      injection E as ->. apply (proj1 (loc_raise ne (snd r))). assumption.
    + intros (r & Hr & Hn).
      rewrite (mapM_raise _ with_first r KeyError); [reflexivity|assumption| |].
      * intros r' _. destruct (loc ne (snd r')) as [t|e] eqn:El; simpl; [eauto|].
        left. f_equal. apply (proj2 (loc_raise ne (snd r'))). assumption.
      * apply (proj1 (loc_raise ne (snd r))) in Hn. rewrite Hn. reflexivity.
  - unfold generate_artificial_lines. intros e H.
    destruct (mapM _ with_first) as [rows|e'] eqn:E; simpl in H; [discriminate|].
    injection H as ->. apply mapM_raise_inv in E as (r & Hr & E).
    destruct (loc ne (snd r)) as [t|e'] eqn:El; simpl in E; [discriminate|].
    injection E as ->. apply (proj2 (loc_raise ne (snd r))). assumption.
Qed.

Lemma mapM_getitem_seq {A : Type} (l pre : list A) :
  mapM (fun x => getitem (pre ++ l) x) (seq (length pre) (length l)) = Ok l.
Proof.
  revert pre. induction l as [|a l IH]; intros pre; [reflexivity|].
  simpl. unfold getitem at 1.
  rewrite nth_error_app2, Nat.sub_diag by lia. simpl.
  replace (pre ++ a :: l) with ((pre ++ [a]) ++ l) by (rewrite <- app_assoc; reflexivity).
  replace (S (length pre)) with (length (pre ++ [a])) by (rewrite length_app; simpl; lia).
  rewrite IH. reflexivity.
Qed.

(** X14. [convert_to_id] replaces each position by the id at that position
    of the index, so every id it returns is in the index; it raises
    [IndexError], and nothing else, exactly when a position is not below the
    length of the frame; on the positions 0 .. len - 1 it returns the index
    itself. *)
Theorem convert_to_id_positions column df :
  (forall out, convert_to_id column df = Ok out ->
     Forall2 (fun x i => nth_error (ids df) x = Some i) column out
     /\ forall i, In i out -> In i (ids df))
  /\ (convert_to_id column df = Raise IndexError
      <-> exists x, In x column /\ length df <= x)
  /\ (forall e, convert_to_id column df = Raise e -> e = IndexError)
  /\ convert_to_id (seq 0 (length df)) df = Ok (ids df).
Proof.
  unfold convert_to_id.
  assert (Hget : forall x e, getitem (ids df) x = Raise e ->
                   e = IndexError /\ length df <= x).
  { intros x e. unfold getitem. destruct (nth_error (ids df) x) eqn:E; [discriminate|].
    intros [= <-]. split; [reflexivity|].
    apply nth_error_None in E. unfold ids in E. rewrite length_map in E. assumption. }
  split; [|split; [|split]].
  - intros out H. apply mapM_Forall2 in H.
    assert (HF : Forall2 (fun x i => nth_error (ids df) x = Some i) column out).
    { eapply Forall2_impl_In; [exact H|]. intros x i _ _ Hx.
      unfold getitem in Hx. destruct (nth_error (ids df) x); congruence. }
    split; [assumption|]. intros i Hi.
    destruct (Forall2_In_r _ _ _ _ HF Hi) as (x & _ & Hx).
    eapply nth_error_In; eassumption.
  - split.
    + intros H. apply mapM_raise_inv in H as (x & Hx & E).
      exists x. split; [assumption|]. apply (Hget x _ E).
    + intros (x & Hx & Hlen).
      apply (mapM_raise _ column x IndexError); [assumption| |].
      * intros x' _. unfold getitem. destruct (nth_error (ids df) x'); eauto.
      * unfold getitem. replace (nth_error (ids df) x) with (@None Z); [reflexivity|].
        symmetry. apply nth_error_None. unfold ids. rewrite length_map. assumption.
  - intros e H. apply mapM_raise_inv in H as (x & _ & E). apply (Hget x e E).
  - rewrite <- (length_map idx df). apply (mapM_getitem_seq (ids df) []).
Qed.

(** X15. Lines 217 and 218 of [main] raise [ValueError], and nothing else,
    exactly when [lines_no_end] has fewer than three lines or
    [lines_no_begin] is empty: the positions returned by the search never
    fall outside the index.  Otherwise the column [first] has one id of
    [lines_no_end] per line of [lines_no_begin]. *)
Theorem first_column_ids ne nb :
  (first_column ne nb = Raise ValueError <-> length ne < 3 \/ nb = [])
  /\ (forall e, first_column ne nb = Raise e -> e = ValueError)
  /\ (forall firsts, first_column ne nb = Ok firsts ->
        length firsts = length nb /\ forall f, In f firsts -> In f (ids ne)).
Proof.
  assert (Hsmall : length ne < 3 \/ nb = [] -> first_column ne nb = Raise ValueError).
  { intros H. unfold first_column, calculate_neighbors.
    replace (kneighbors 3 _ _) with (@Raise (list (list nat)) ValueError);
      [reflexivity|].
    symmetry. destruct H as [H|H].
    - apply kneighbors_raise. rewrite length_map. assumption.
    - rewrite H. simpl. unfold kneighbors. destruct (map e_point ne); reflexivity. }
  assert (Hcases : (length ne < 3 \/ nb = [])
                   \/ exists firsts, first_column ne nb = Ok firsts).
  { destruct (le_lt_dec 3 (length ne)) as [H3|H3]; [|auto].
    destruct nb as [|l nb]; [auto|]. right.
    apply first_column_total; [assumption|discriminate]. }
  split; [|split].
  - split; [|exact Hsmall]. intros H.
    destruct Hcases as [Hc|[firsts Hc]]; [assumption|congruence].
  - intros e H. destruct Hcases as [Hc|[firsts Hc]]; [|congruence].
    rewrite (Hsmall Hc) in H. congruence.
  - intros firsts H. apply first_column_nearest in H.
    split; [symmetry; apply (Forall2_length' _ _ _ H)|].
    intros f Hf. destruct (Forall2_In_r _ _ _ _ H Hf) as (l & _ & t & [Ht _] & ->).
    apply in_map. assumption.
Qed.

(** ** Counting connectors *)

Lemma iteration_balance thr s b s' :
  wf_state s -> iteration thr s = Ok (b, s') ->
  length (result_lines s') + length (lines_no_end s')
  = length (result_lines s) + length (lines_no_end s)
  /\ length (result_lines s') + length (lines_no_begin s')
     = length (result_lines s) + length (lines_no_begin s)
  /\ (b = false -> wf_state s').
Proof.
  intros Hwf Hit.
  destruct (iteration_inv _ _ _ _ Hit) as (filtered & _ & Hres & _).
  destruct (iteration_shrinks thr s b s' filtered Hwf Hit Hres)
    as (_ & _ & He & Hb & Hc).
  rewrite Hres, length_app. split; [lia|]. split; [lia|].
  intros E. apply Hc, E.
Qed.

Lemma reaches_balance thr s0 s :
  wf_state s0 -> reaches thr s0 s ->
  wf_state s
  /\ length (result_lines s) + length (lines_no_end s)
     = length (result_lines s0) + length (lines_no_end s0)
  /\ length (result_lines s) + length (lines_no_begin s)
     = length (result_lines s0) + length (lines_no_begin s0).
Proof.
  intros Hwf Hr. induction Hr as [|s1 s2 Hr (Hwf1 & He & Hb) Hit]; [auto|].
  destruct (iteration_balance thr s1 false s2 Hwf1 Hit) as (He' & Hb' & Hc).
  split; [apply Hc; reflexivity|]. lia.
Qed.

(** X16. When [main] ends in DONE on an input with unique ids, the number
    of connectors plus the size of either residual pool is the size that
    pool had after [get_lines]; so there are no more connectors than lines
    in the smaller pool. *)
Theorem connectors_balance_pools thr fuel df ne nb s' :
  NoDup (map fid df) -> get_lines df = Ok (ne, nb) ->
  main fuel df thr = Done s' ->
  length (result_lines s') + length (lines_no_end s') = length ne
  /\ length (result_lines s') + length (lines_no_begin s') = length nb
  /\ length (result_lines s') <= Nat.min (length ne) (length nb).
Proof.
  intros Hnd Hg Hmain. unfold main in Hmain. rewrite Hg in Hmain.
  destruct (get_lines_wf df ne nb Hnd Hg) as [Hwf _].
  destruct (loop_done_reaches thr fuel _ _ Hmain) as (s & Hr & Hit).
  destruct (reaches_balance thr _ _ Hwf Hr) as (Hwfs & He & Hb).
  destruct (iteration_balance thr s true s' Hwfs Hit) as (He' & Hb' & _).
  simpl in He, Hb. lia.
Qed.

(** X17. A round that starts from a well-formed state with fewer than 5
    lines in one of the pools and returns is the last one; on an input with
    unique ids and fewer than 5 lines, [main] runs one round, whatever the
    number of rounds it is allowed. *)
Theorem small_pool_single_round thr :
  (forall s b s', wf_state s ->
     length (lines_no_end s) < 5 \/ length (lines_no_begin s) < 5 ->
     iteration thr s = Ok (b, s') -> b = true)
  /\ (forall df fuel, NoDup (map fid df) -> length df < 5 ->
        main (S fuel) df thr = main 1 df thr).
Proof.
  assert (Hround : forall s b s', wf_state s ->
            length (lines_no_end s) < 5 \/ length (lines_no_begin s) < 5 ->
            iteration thr s = Ok (b, s') -> b = true).
  { intros s b s' Hwf Hsmall Hit.
    destruct (iteration_inv _ _ _ _ Hit) as (filtered & _ & Hres & _).
    destruct (iteration_shrinks thr s b s' filtered Hwf Hit Hres)
      as (_ & _ & He & Hb & Hc).
    destruct b; [reflexivity|]. destruct (Hc eq_refl) as [H5 _]. lia. }
  split; [exact Hround|].
  intros df fuel Hnd Hlen. unfold main.
  destruct (get_lines df) as [[ne nb]|e] eqn:Eg; [|reflexivity].
  destruct (get_lines_wf df ne nb Hnd Eg) as [Hwf Hle].
  rewrite !loop_S.
  destruct (iteration thr (initial ne nb)) as [[b s']|e] eqn:Hit; [|reflexivity].
  rewrite (Hround _ _ _ Hwf (or_intror (Nat.le_lt_trans _ _ _ Hle Hlen)) Hit).
  reflexivity.
Qed.

(** ** Names *)

Module NamesFacts.
Import Strings.String Strings.Ascii Names.

Lemma plain_uint d : plain (DecimalString.NilEmpty.string_of_uint d).
Proof. induction d; simpl; (exact I || (split; [discriminate|assumption])). Qed.

Lemma plain_str z : plain (str z).
Proof.
  unfold str, DecimalString.NilZero.string_of_int, DecimalString.NilZero.string_of_uint.
  destruct (Z.to_int z) as [d|d].
  - destruct d; try apply plain_uint. simpl. split; [discriminate|exact I].
  - simpl. split; [discriminate|].
    destruct d; try apply plain_uint. simpl. split; [discriminate|exact I].
Qed.

Lemma split_at_underscore s1 : forall s1' s2 s2',
  plain s1 -> plain s1' ->
  (s1 ++ String "_" s2 = s1' ++ String "_" s2')%string ->
  s1 = s1' /\ s2 = s2'.
Proof.
  induction s1 as [|c s1 IH]; intros [|c' s1'] s2 s2' H1 H1' E; simpl in *.
  - injection E as <-. auto.
  - injection E as <- _. destruct H1' as [H _]. contradiction.
  - injection E as -> _. destruct H1 as [H _]. contradiction.
  - injection E as <- E. destruct (IH s1' s2 s2' (proj2 H1) (proj2 H1') E) as [-> ->].
    auto.
Qed.

Lemma to_int_proper z : Z.to_int z <> Decimal.Pos Decimal.Nil /\ Z.to_int z <> Decimal.Neg Decimal.Nil.
Proof.
  destruct z as [|p|p]; simpl; split; try discriminate;
    intros [= E]; apply (DecimalPos.Unsigned.to_uint_nonnil p E).
Qed.

Lemma str_inj z z' : str z = str z' -> z = z'.
Proof.
  unfold str. intros E. apply DecimalZ.to_int_inj.
  destruct (to_int_proper z) as [H1 H2]. destruct (to_int_proper z') as [H1' H2'].
  pose proof (DecimalString.NilZero.isi _ H1 H2) as P.
  pose proof (DecimalString.NilZero.isi _ H1' H2') as P'.
  rewrite E in P. congruence.
Qed.

Lemma naam_inj c c' :
  naam c = naam c' -> c_e_idx c = c_e_idx c' /\ c_b_idx c = c_b_idx c'.
Proof.
  unfold naam. intros E. simpl in E. injection E as E.
  destruct (split_at_underscore _ _ _ _ (plain_str _) (plain_str _) E) as [E1 E2].
  split; apply str_inj; assumption.
Qed.

(** X20. Two rows with the same [naam] have the same source and the same
    destination id, and the names of the connectors with which [main] ends
    on an input with unique ids are pairwise distinct. *)
Theorem names_are_distinct thr :
  (forall c c', naam c = naam c' ->
     c_e_idx c = c_e_idx c' /\ c_b_idx c = c_b_idx c')
  /\ (forall fuel df s', NoDup (map fid df) -> main fuel df thr = Done s' ->
        NoDup (map naam (result_lines s'))).
Proof.
  split; [exact naam_inj|].
  intros fuel df s' Hnd Hmain.
  assert (Hm : matched_once s').
  { unfold main in Hmain.
    destruct (get_lines df) as [[ne nb]|e] eqn:Eg; [|discriminate].
    destruct (get_lines_wf df ne nb Hnd Eg) as [Hwf _].
    destruct (loop_done_reaches thr fuel _ _ Hmain) as (s & Hr & Hit).
    assert (Hm0 : matched_once (initial ne nb)).
    { split; [constructor|]. split; [constructor|]. simpl. contradiction. }
    destruct (reaches_invariant thr _ _ Hwf Hm0 Hr) as [Hwfs Hms].
    destruct (iteration_matched_once thr s true s' Hwfs Hms Hit) as (_ & _ & _ & H & _).
    exact H. }
  destruct Hm as (He & _ & _).
  revert He. generalize (result_lines s'). intros l.
  induction l as [|c l IH]; simpl; intros H; [constructor|].
  inversion H as [|? ? Hn Hl]; subst. constructor; [|auto].
  intros Hin. apply in_map_iff in Hin as (c' & E & Hc').
  apply Hn. destruct (naam_inj _ _ E) as [E1 _]. rewrite <- E1.
  apply in_map. assumption.
Qed.

Lemma ex_naam : naam (mkConnector (-3) 12 0 0 []) = "Artificial_-3_12"%string.
Proof. reflexivity. Qed.
End NamesFacts.

(** ** Reversal, and [read_shp] *)




Lemma fid_leb_total (a b : feature) :
  Z.leb (fid a) (fid b) = true \/ Z.leb (fid b) (fid a) = true.
Proof. destruct (Z.leb_spec (fid a) (fid b)), (Z.leb_spec (fid b) (fid a)); auto; lia. Qed.

Lemma sorted_rows df rows :
  Forall2 row_of df rows ->
  StronglySorted (fun a b => (fid a <= fid b)%Z) df ->
  StronglySorted (fun a b => (idx a <= idx b)%Z) rows.
Proof.
  induction 1 as [|f l df rows Hfl HF IH]; intros Hs; constructor.
  - apply IH. inversion Hs; assumption.
  - inversion Hs as [|? ? _ Hall]; subst. rewrite Forall_forall in *.
    intros l' Hl'. destruct (Forall2_In_r _ _ _ _ HF Hl') as (f' & Hf' & Hr').
    destruct Hfl as [-> _]. destruct Hr' as [-> _]. auto.
Qed.

(** X19. [read_shp] returns the rows of the file, none lost or added, by
    increasing id; unique ids stay unique; and both pools that [get_lines]
    returns on its result are by increasing id. *)
Theorem read_shp_sorts file :
  Permutation (read_shp file) file
  /\ StronglySorted (fun a b => (fid a <= fid b)%Z) (read_shp file)
  /\ (NoDup (map fid file) -> NoDup (map fid (read_shp file)))
  /\ (forall ne nb, get_lines (read_shp file) = Ok (ne, nb) ->
        StronglySorted (fun a b => (idx a <= idx b)%Z) ne
        /\ StronglySorted (fun a b => (idx a <= idx b)%Z) nb).
Proof.
  assert (Hs : StronglySorted (fun a b => (fid a <= fid b)%Z) (read_shp file)).
  { unfold read_shp. eapply StronglySorted_weaken;
      [|apply (sort_sorted (fun a b => Z.leb (fid a) (fid b)))].
    - intros a b _ _ H. apply Z.leb_le. exact H.
    - exact fid_leb_total.
    - intros x y z. rewrite !Z.leb_le. lia. }
  split; [apply sort_perm|]. split; [exact Hs|]. split.
  - intros H. eapply Permutation_NoDup; [|exact H].
    apply Permutation_map, Permutation_sym, sort_perm.
  - intros ne nb Hg.
    destruct (get_lines_rows _ _ _ Hg) as (rows & HF & _ & -> & ->).
    split; apply StronglySorted_filter; apply (sorted_rows _ _ HF Hs).
Qed.

(** ** A run on the example network *)

Lemma degrees_quarter_PI : degrees (PI / 4) = 45%R.
Proof. unfold degrees. pose proof PI_neq0. field. assumption. Qed.

Lemma AngleBtw2Points_north_east (p q : point) :
  (fst p < fst q)%R -> (snd q - snd p = fst q - fst p)%R ->
  AngleBtw2Points p q = 45%R.
Proof.
  intros Hx Hy. unfold AngleBtw2Points; cbv zeta. rewrite Hy. unfold atan2.
  destruct (Rlt_dec 0 (fst q - fst p)); [|lra].
  replace ((fst q - fst p) / (fst q - fst p))%R with 1%R by (field; lra).
  rewrite atan_1. apply degrees_quarter_PI.
Qed.

Lemma ex_network_get_lines :
  get_lines ex_network = Ok (ex_network_end, ex_network_begin).
Proof. unfold get_lines, ex_network. Reval. reflexivity. Qed.

Lemma ex_network_first_column :
  first_column ex_network_end ex_network_begin = Ok [2; 2; 4]%Z.
Proof.
  unfold first_column, calculate_neighbors, kneighbors, argsort,
    ex_network_end, ex_network_begin.
  Reval. reflexivity.
Qed.

Lemma ex_network_iteration :
  iteration 5 (initial ex_network_end ex_network_begin) = Ok (true, ex_network_done).
Proof.
  unfold iteration, initial. simpl lines_no_end. simpl lines_no_begin.
  rewrite ex_network_first_column.
  unfold ex_network_end, ex_network_begin, calculate_cos, keep.
  cbn -[AngleBtw2Points Rabs Rltb].
  rewrite (AngleBtw2Points_north_east (-5, -5)%R (0, 0)%R) by (simpl; lra).
  Rangles.
  replace (Rabs (0 - 45)) with 45%R by (unfold Rabs; destruct (Rcase_abs (0 - 45)); lra).
  repeat (progress Rcompare; cbn -[AngleBtw2Points Rabs Rltb]).
  reflexivity.
Qed.

Lemma ex_network_main : main 1 ex_network 5 = Done ex_network_done.
Proof.
  unfold main. rewrite ex_network_get_lines, loop_S, ex_network_iteration.
  reflexivity.
Qed.

(** ** End points, and a threshold of zero *)



Lemma filter_all {A : Type} (p : A -> bool) l :
  (forall x, In x l -> p x = true) -> filter p l = l.
Proof.
  induction l as [|a l IH]; simpl; intros H; [reflexivity|].
  rewrite (H a (or_introl eq_refl)). f_equal. apply IH. auto.
Qed.

Lemma nonpositive_threshold_round thr s b s' :
  (thr <= 0)%R -> iteration thr s = Ok (b, s') ->
  result_lines s' = result_lines s
  /\ lines_no_end s' = lines_no_end s
  /\ lines_no_begin s' = lines_no_begin s.
Proof.
  intros Hthr Hit.
  destruct (iteration_inv _ _ _ _ Hit) as (filtered & Hr & Hres & Hdb & Hde & _).
  assert (filtered = []).
  { unfold round_connectors in Hr.
    apply bind_ok in Hr as (firsts & _ & Hr). apply bind_ok in Hr as (wf' & _ & Hr).
    apply bind_ok in Hr as (arts & _ & Hr).
    eapply nonpositive_threshold_empty; eassumption. }
  subst filtered. rewrite app_nil_r in Hres.
  apply drop_inv in Hdb as [Eb _]. apply drop_inv in Hde as [Ee _].
  simpl in Eb, Ee. rewrite filter_all in Eb, Ee by reflexivity. auto.
Qed.

(** X18. With a threshold of 0 or less, a round that returns leaves the
    result and both pools as they were, and a run of [main] that ends in
    DONE ends with no connector and with the pools of [get_lines]. *)
Theorem nonpositive_threshold_run thr :
  (thr <= 0)%R ->
  (forall s b s', iteration thr s = Ok (b, s') ->
     result_lines s' = result_lines s
     /\ lines_no_end s' = lines_no_end s
     /\ lines_no_begin s' = lines_no_begin s)
  /\ (forall fuel df s', main fuel df thr = Done s' ->
        result_lines s' = []
        /\ get_lines df = Ok (lines_no_end s', lines_no_begin s')).
Proof.
  intros Hthr. split; [intros s b s'; apply nonpositive_threshold_round, Hthr|].
  intros fuel df s' Hmain. unfold main in Hmain.
  destruct (get_lines df) as [[ne nb]|e] eqn:Eg; [|discriminate].
  destruct (loop_done_reaches thr fuel _ _ Hmain) as (s & Hr & Hit).
  assert (Hs : result_lines s = [] /\ lines_no_end s = ne /\ lines_no_begin s = nb).
  { clear Hit. induction Hr as [|s1 s2 Hr (H1 & H2 & H3) Hit]; [auto|].
    destruct (nonpositive_threshold_round thr s1 false s2 Hthr Hit) as (E1 & E2 & E3).
    rewrite E1, E2, E3. auto. }
  destruct Hs as (H1 & H2 & H3).
  destruct (nonpositive_threshold_round thr s true s' Hthr Hit) as (E1 & E2 & E3).
  rewrite E1, E2, E3, H1, H2, H3. auto.
Qed.

Lemma ex_network_iteration_zero :
  iteration 0 (initial ex_network_end ex_network_begin)
  = Ok (true, initial ex_network_end ex_network_begin).
Proof.
  unfold iteration, initial. simpl lines_no_end. simpl lines_no_begin.
  rewrite ex_network_first_column.
  unfold ex_network_end, ex_network_begin, calculate_cos, keep.
  cbn -[AngleBtw2Points Rabs Rltb].
  rewrite (AngleBtw2Points_north_east (-5, -5)%R (0, 0)%R) by (simpl; lra).
  Rangles.
  replace (Rabs (0 - 45)) with 45%R by (unfold Rabs; destruct (Rcase_abs (0 - 45)); lra).
  repeat (progress Rcompare; cbn -[AngleBtw2Points Rabs Rltb]).
  reflexivity.
Qed.

Lemma ex_network_main_zero :
  main 1 ex_network 0 = Done (initial ex_network_end ex_network_begin).
Proof.
  unfold main. rewrite ex_network_get_lines, loop_S, ex_network_iteration_zero.
  reflexivity.
Qed.

Lemma nonpositive_threshold_run_witness :
  result_lines (initial ex_network_end ex_network_begin) = []
  /\ get_lines ex_network
     = Ok (lines_no_end (initial ex_network_end ex_network_begin),
           lines_no_begin (initial ex_network_end ex_network_begin)).
Proof.
  apply (proj2 (nonpositive_threshold_run 0 (Rle_refl 0)) 1 ex_network
           (initial ex_network_end ex_network_begin)).
  exact ex_network_main_zero.
Defined.

(** ** The properties on the examples *)



Lemma ex_chain_get_lines :
  get_lines ex_chain
  = Ok ([mkLine 2 [(1, 0); (2, 0)] (1, 0) (2, 0)]%R,
        [mkLine 1 [(0, 0); (1, 0)] (0, 0) (1, 0)]%R).
Proof. unfold get_lines, ex_chain. Reval. reflexivity. Qed.

Lemma pools_smaller_than_frame_witness :
  length [mkLine 2 [(1, 0); (2, 0)] (1, 0) (2, 0)]%R < length ex_chain
  /\ length [mkLine 1 [(0, 0); (1, 0)] (0, 0) (1, 0)]%R < length ex_chain.
Proof.
  apply (proj2 (proj2 (pools_smaller_than_frame ex_chain _ _ ex_chain_get_lines))).
  exists (mkFeature 1 [(0, 0); (1, 0)]%R), (mkFeature 2 [(1, 0); (2, 0)]%R), (1, 0)%R.
  split; [left; reflexivity|]. split; [right; left; reflexivity|].
  split; reflexivity.
Defined.

Lemma connectors_have_length_witness :
  e_point (mkLine 2 [(0, 0); (1, 0)] (0, 0) (1, 0))%R
  <> b_point (mkLine 3 [(2, 0); (4, 0)] (2, 0) (4, 0))%R.
Proof.
  apply (proj1 (connectors_have_length 5 ex_network ex_network_end ex_network_begin
                  (initial ex_network_end ex_network_begin)
                  ex_network_get_lines
                  (reaches_here 5 (initial ex_network_end ex_network_begin)))).
  - left. reflexivity.
  - right. left. reflexivity.
Defined.





Lemma five_le_ten : (5 <= 10)%R.
Proof. lra. Qed.

Lemma threshold_monotone_witness :
  exists out2,
    calculate_cos ex_no_begin ex_artificial ex_no_end 10 = Ok out2
    /\ incl [mkConnector 1 2 0 0 [(1, 0); (2, 0)]%R] out2.
Proof.
  apply (proj1 (threshold_monotone ex_no_begin ex_artificial ex_no_end 5 10 five_le_ten)).
  exact ex_calculate_cos.
Defined.

Lemma calculate_cos_sorted_witness :
  StronglySorted (fun a b => (c_e_idx a < c_e_idx b)%Z)
    [mkConnector 1 2 0 0 [(1, 0); (2, 0)]%R]
  /\ incl (map c_e_idx [mkConnector 1 2 0 0 [(1, 0); (2, 0)]%R])
          (map e_idx ex_artificial)
  /\ length [mkConnector 1 2 0 0 [(1, 0); (2, 0)]%R] <= length ex_artificial.
Proof.
  apply (calculate_cos_sorted ex_no_begin ex_artificial ex_no_end 5). exact ex_calculate_cos.
Defined.

Lemma calculate_cos_raises_witness :
  exists e, calculate_cos ex_no_begin ex_artificial [] 5 = Raise e.
Proof.
  apply (proj2 (calculate_cos_raises ex_no_begin [] 5) ex_artificial
           (mkArt 1 2 [(1, 0); (2, 0)]%R)).
  - left. reflexivity.
  - left. simpl. tauto.
Defined.

Lemma generate_artificial_lines_frame_witness :
  length ex_tie_artificial = length (combine ex_tie [1%Z; 1%Z])
  /\ Permutation (map b_idx ex_tie_artificial)
       (map (fun r => idx (fst r)) (combine ex_tie [1%Z; 1%Z]))
  /\ Permutation (map e_idx ex_tie_artificial) (map snd (combine ex_tie [1%Z; 1%Z]))
  /\ (forall a, In a ex_tie_artificial -> In (e_idx a) (ids ex_three))
  /\ StronglySorted (fun a b => index_leb a b = true) ex_tie_artificial.
Proof.
  apply (proj1 (generate_artificial_lines_frame (combine ex_tie [1%Z; 1%Z]) ex_three)).
  exact ex_tie_generate.
Defined.

Lemma convert_to_id_positions_witness :
  Forall2 (fun x i => nth_error (ids ex_three) x = Some i) [2; 0] [4%Z; 1%Z]
  /\ forall i, In i [4%Z; 1%Z] -> In i (ids ex_three).
Proof.
  apply (proj1 (convert_to_id_positions [2; 0] ex_three)). reflexivity.
Defined.

Lemma first_column_ids_witness :
  length [1%Z] = length ex_no_begin /\ forall f, In f [1%Z] -> In f (ids ex_three).
Proof.
  apply (proj2 (proj2 (first_column_ids ex_three ex_no_begin))). exact ex_three_first.
Defined.

Lemma ex_network_NoDup : NoDup (map fid ex_network).
Proof. repeat constructor; simpl; intuition discriminate. Qed.

Lemma connectors_balance_pools_witness :
  length (result_lines ex_network_done) + length (lines_no_end ex_network_done)
  = length ex_network_end
  /\ length (result_lines ex_network_done) + length (lines_no_begin ex_network_done)
     = length ex_network_begin
  /\ length (result_lines ex_network_done)
     <= Nat.min (length ex_network_end) (length ex_network_begin).
Proof.
  apply (connectors_balance_pools 5 1 ex_network ex_network_end ex_network_begin
           ex_network_done).
  - exact ex_network_NoDup.
  - exact ex_network_get_lines.
  - exact ex_network_main.
Defined.

Lemma small_pool_single_round_witness :
  main 4 ex_network 5 = main 1 ex_network 5.
Proof.
  apply (proj2 (small_pool_single_round 5) ex_network 3).
  - exact ex_network_NoDup.
  - simpl. lia.
Defined.

Lemma ex_read_shp : read_shp (rev ex_network) = ex_network.
Proof. reflexivity. Qed.

Lemma read_shp_sorts_witness :
  NoDup (map fid (read_shp (rev ex_network))).
Proof.
  apply (proj1 (proj2 (proj2 (read_shp_sorts (rev ex_network))))).
  simpl. repeat constructor; simpl; intuition discriminate.
Defined.

Lemma names_are_distinct_witness :
  NoDup (map Names.naam (result_lines ex_network_done)).
Proof.
  apply (proj2 (NamesFacts.names_are_distinct 5) 1 ex_network ex_network_done).
  - exact ex_network_NoDup.
  - exact ex_network_main.
Defined.
